(** * IdealGenericCameraModel: the Geyer / Barreto / Mei unit-sphere camera

    A shallow embedding of [IdealGenericCameraModel.hpp].  The class template
    is parametric in its scalar type; the properties below are statements of
    real algebra, so [Scalar] is instantiated with the real numbers.  The
    three storage variants (owned matrix, [Eigen::Map], [Eigen::Map] to
    const) differ only in who owns the nine coefficients, so a single value
    type stands for all of them and setters are explicit state passing. *)

From Stdlib Require Import Reals Lra Psatz List String Bool.
Import ListNotations.

Open Scope R_scope.

(** ** Decidable comparisons of the scalar type, as the C++ operators *)

Definition Rltb (a b : R) : bool := if Rlt_dec a b then true else false.
Definition Rleb (a b : R) : bool := if Rle_dec a b then true else false.
Definition Rgtb (a b : R) : bool := if Rgt_dec a b then true else false.
Definition Rgeb (a b : R) : bool := if Rge_dec a b then true else false.

(** [std::min(a, b)] is [(b < a) ? b : a]. *)
Definition std_min (a b : R) : R := if Rlt_dec b a then b else a.

Module Camera.

(** The scalar type of the templates. *)
Abbreviation Scalar := R (only parsing).

(** [camera::internal::IdealGenericCameraModelParameterCount] *)
Definition IdealGenericCameraModelParameterCount : nat := 9.

(** ** Fixed-size vectors

    [Eigen::Matrix<Scalar,9,1>] (the [ComplexType] of the traits class),
    [ComplexTypes<T>::PointT] (three rows) and [ComplexTypes<T>::PixelT]
    (two rows). *)

Record ComplexType : Type := MkComplex {
  c0 : Scalar; c1 : Scalar; c2 : Scalar; c3 : Scalar; c4 : Scalar;
  c5 : Scalar; c6 : Scalar; c7 : Scalar; c8 : Scalar
}.

Record PointT : Type := MkPoint { pt0 : Scalar; pt1 : Scalar; pt2 : Scalar }.
Record PixelT : Type := MkPixel { px0 : Scalar; px1 : Scalar }.

(** [v.data()[i]] read.  An index past the ninth coefficient is outside the
    object in C++; the embedding returns zero there and no function below
    ever uses such an index. *)
Definition coeff (v : ComplexType) (i : nat) : Scalar :=
  match i with
  | 0%nat => c0 v | 1%nat => c1 v | 2%nat => c2 v
  | 3%nat => c3 v | 4%nat => c4 v | 5%nat => c5 v
  | 6%nat => c6 v | 7%nat => c7 v | 8%nat => c8 v
  | _ => 0
  end.

(** [v.data()[i] = x] write; an index past the ninth coefficient leaves the
    vector as it is. *)
Definition set_coeff (v : ComplexType) (i : nat) (x : Scalar) : ComplexType :=
  match v with
  | MkComplex a0 a1 a2 a3 a4 a5 a6 a7 a8 =>
    match i with
    | 0%nat => MkComplex x a1 a2 a3 a4 a5 a6 a7 a8
    | 1%nat => MkComplex a0 x a2 a3 a4 a5 a6 a7 a8
    | 2%nat => MkComplex a0 a1 x a3 a4 a5 a6 a7 a8
    | 3%nat => MkComplex a0 a1 a2 x a4 a5 a6 a7 a8
    | 4%nat => MkComplex a0 a1 a2 a3 x a5 a6 a7 a8
    | 5%nat => MkComplex a0 a1 a2 a3 a4 x a6 a7 a8
    | 6%nat => MkComplex a0 a1 a2 a3 a4 a5 x a7 a8
    | 7%nat => MkComplex a0 a1 a2 a3 a4 a5 a6 x a8
    | 8%nat => MkComplex a0 a1 a2 a3 a4 a5 a6 a7 x
    | _ => v
    end
  end.

(** [Eigen::Matrix<Scalar,NumParameters,1>::Zero()] *)
Definition Zero : ComplexType := MkComplex 0 0 0 0 0 0 0 0 0.

(** ** The model and its storage *)

Record IdealGenericCameraModel : Type := MkModel { parameters : ComplexType }.

Definition access (m : IdealGenericCameraModel) : ComplexType := parameters m.

Definition data (m : IdealGenericCameraModel) (i : nat) : Scalar :=
  coeff (access m) i.

Definition set_data (m : IdealGenericCameraModel) (i : nat) (x : Scalar)
  : IdealGenericCameraModel :=
  MkModel (set_coeff (access m) i x).

(** [IdealGenericCameraModel(fx, fy, u0, v0, epsilon, w, h, r1, r2)]:
    [access_nonconst() << fx, fy, u0, v0, epsilon, w, h, r1, r2]. *)
Definition make (fx fy u0 v0 epsilon w h r1 r2 : Scalar) : IdealGenericCameraModel :=
  MkModel (MkComplex fx fy u0 v0 epsilon w h r1 r2).

(** The four-argument call, the trailing arguments at their default [0.0]. *)
Definition make4 (fx fy u0 v0 : Scalar) : IdealGenericCameraModel :=
  make fx fy u0 v0 0 0 0 0 0.

(** [IdealGenericCameraModel()] *)
Definition default_model : IdealGenericCameraModel := MkModel Zero.

Definition NumParameters : nat := IdealGenericCameraModelParameterCount.
Definition ParametersToOptimize : nat := (NumParameters - 4)%nat.
Definition CalibrationSupported : bool := true.

(** ** Named accessors *)

Definition fx (m : IdealGenericCameraModel) : Scalar := data m 0.
Definition fy (m : IdealGenericCameraModel) : Scalar := data m 1.
Definition u0 (m : IdealGenericCameraModel) : Scalar := data m 2.
Definition v0 (m : IdealGenericCameraModel) : Scalar := data m 3.
Definition epsilon (m : IdealGenericCameraModel) : Scalar := data m 4.
Definition width (m : IdealGenericCameraModel) : Scalar := data m 5.
Definition height (m : IdealGenericCameraModel) : Scalar := data m 6.
Definition r1 (m : IdealGenericCameraModel) : Scalar := data m 7.
Definition r2 (m : IdealGenericCameraModel) : Scalar := data m 8.

Definition set_fx (m : IdealGenericCameraModel) (v : Scalar) := set_data m 0 v.
Definition set_fy (m : IdealGenericCameraModel) (v : Scalar) := set_data m 1 v.
Definition set_u0 (m : IdealGenericCameraModel) (v : Scalar) := set_data m 2 v.
Definition set_v0 (m : IdealGenericCameraModel) (v : Scalar) := set_data m 3 v.
Definition set_epsilon (m : IdealGenericCameraModel) (v : Scalar) := set_data m 4 v.
Definition set_width (m : IdealGenericCameraModel) (v : Scalar) := set_data m 5 v.
Definition set_height (m : IdealGenericCameraModel) (v : Scalar) := set_data m 6 v.
Definition set_r1 (m : IdealGenericCameraModel) (v : Scalar) := set_data m 7 v.
Definition set_r2 (m : IdealGenericCameraModel) (v : Scalar) := set_data m 8 v.

(** ** Vector helpers of the linear-algebra library *)

Definition squaredNorm (p : PointT) : Scalar :=
  pt0 p * pt0 p + pt1 p * pt1 p + pt2 p * pt2 p.

Definition norm (p : PointT) : Scalar := sqrt (squaredNorm p).

Definition scale (k : Scalar) (p : PointT) : PointT :=
  MkPoint (k * pt0 p) (k * pt1 p) (k * pt2 p).

(** [MatrixBase::normalized()]: the vector divided by its norm; the zero
    vector is handed back as it is. *)
Definition normalized (p : PointT) : PointT :=
  if Rgtb (squaredNorm p) 0
  then MkPoint (pt0 p / sqrt (squaredNorm p))
               (pt1 p / sqrt (squaredNorm p))
               (pt2 p / sqrt (squaredNorm p))
  else p.

Definition nonzero (p : PointT) : Prop := p <> MkPoint 0 0 0.

(** ** Unprojection, pixel to ray *)

Definition inverse (ccd : IdealGenericCameraModel) (x y : Scalar) : PointT :=
  let pix_dist0 := (x - u0 ccd) / fx ccd in
  let pix_dist1 := (y - v0 ccd) / fy ccd in
  let x2 := pix_dist0 * pix_dist0 in
  let y2 := pix_dist1 * pix_dist1 in
  let eps2 := epsilon ccd * epsilon ccd in
  let term := (epsilon ccd + sqrt (1 + (1 - eps2) * (x2 + y2))) / (x2 + y2 + 1) in
  MkPoint (term * pix_dist0) (term * pix_dist1) (term - epsilon ccd).

(** ** Projection, ray to pixel *)

Definition forward (ccd : IdealGenericCameraModel) (tmp_pt : PointT) : PixelT :=
  let unit_pt := normalized tmp_pt in
  let p0 := pt0 unit_pt / (pt2 unit_pt + epsilon ccd) in
  let p1 := pt1 unit_pt / (pt2 unit_pt + epsilon ccd) in
  MkPixel (fx ccd * p0 + u0 ccd) (fy ccd * p1 + v0 ccd).

(** ** Validity masks *)

Definition pixelValidSquare (ccd : IdealGenericCameraModel) (x y : Scalar) : bool :=
  if Rgeb x 0 && Rltb x (width ccd) && Rgeb y 0 && Rltb y (height ccd)
  then true
  else false.

Definition pixelValidCircular (ccd : IdealGenericCameraModel) (x y : Scalar) : bool :=
  if Rleb (r1 ccd) 0
  then
    let x2 := (x - u0 ccd) * (x - u0 ccd) in
    let y2 := (y - v0 ccd) * (y - v0 ccd) in
    if Rltb (x2 + y2) (r2 ccd * r2 ccd) then true else false
  else
    let x2 := (x - u0 ccd) * (x - u0 ccd) in
    let y2 := (y - v0 ccd) * (y - v0 ccd) in
    let r12 := r1 ccd * r1 ccd in
    let r22 := r2 ccd * r2 ccd in
    if Rgtb (x2 + y2) r12 && Rltb (x2 + y2) r22 then true else false.

(** ** Viewport rescaling

    The object is mutated in place; each setter call is one state
    transition, in the order of the source. *)

Definition resizeViewport (ccd : IdealGenericCameraModel)
                          (new_width new_height : Scalar)
  : IdealGenericCameraModel :=
  let x_ratio := new_width / width ccd in
  let y_ratio := new_height / height ccd in
  let r_ratio := std_min x_ratio y_ratio in
  let ccd := set_fx ccd (fx ccd * x_ratio) in
  let ccd := set_fy ccd (fy ccd * y_ratio) in
  let ccd := set_u0 ccd (u0 ccd * x_ratio) in
  let ccd := set_v0 ccd (v0 ccd * y_ratio) in
  let ccd := set_r1 ccd (r1 ccd * r_ratio) in
  let ccd := set_r2 ccd (r2 ccd * r_ratio) in
  let ccd := set_width ccd new_width in
  set_height ccd new_height.

(** ** Serialization

    Compiled only with [CAMERA_MODELS_HAVE_SERIALIZER]; the version number
    is received and not looked at. *)

(** An output archive: the name-value pairs written so far, oldest first. *)
Definition Archive : Type := list (string * Scalar).

(** Modelled from the spec: the macro [CAMERA_MODELS_SERIALIZE], defined in
    the helper header that is not part of this file.  The persisted form is
    a record of named fields kept in the order they are written, so one use
    of the macro appends one name-value pair to the archive. *)
Definition CAMERA_MODELS_SERIALIZE (archive : Archive) (name : string) (v : Scalar)
  : Archive :=
  archive ++ [(name, v)].

Definition serialize (archive : Archive) (version : N) (m : IdealGenericCameraModel)
  : Archive :=
  let archive := CAMERA_MODELS_SERIALIZE archive "fx" (data m 0) in
  let archive := CAMERA_MODELS_SERIALIZE archive "fy" (data m 1) in
  let archive := CAMERA_MODELS_SERIALIZE archive "u0" (data m 2) in
  let archive := CAMERA_MODELS_SERIALIZE archive "v0" (data m 3) in
  let archive := CAMERA_MODELS_SERIALIZE archive "epsilon" (data m 4) in
  let archive := CAMERA_MODELS_SERIALIZE archive "r1" (data m 5) in
  let archive := CAMERA_MODELS_SERIALIZE archive "r2" (data m 6) in
  let archive := CAMERA_MODELS_SERIALIZE archive "width" (data m 7) in
  CAMERA_MODELS_SERIALIZE archive "height" (data m 8).

(** The value stored under a key: the first pair with that name. *)
Fixpoint lookup (archive : Archive) (name : string) : option Scalar :=
  match archive with
  | [] => None
  | (k, v) :: rest => if String.eqb k name then Some v else lookup rest name
  end.

Definition keys (archive : Archive) : list string := map fst archive.

(** The named parameter a key of the persisted record stands for. *)
Definition named_parameter (m : IdealGenericCameraModel) (name : string)
  : option Scalar :=
  if String.eqb name "fx" then Some (fx m)
  else if String.eqb name "fy" then Some (fy m)
  else if String.eqb name "u0" then Some (u0 m)
  else if String.eqb name "v0" then Some (v0 m)
  else if String.eqb name "epsilon" then Some (epsilon m)
  else if String.eqb name "r1" then Some (r1 m)
  else if String.eqb name "r2" then Some (r2 m)
  else if String.eqb name "width" then Some (width m)
  else if String.eqb name "height" then Some (height m)
  else None.

(** ** Guarded embedding of the unprojection

    The same steps with the partial operations made explicit: a division
    fails on a zero divisor and a square root on a negative argument. *)

Definition checked_div (a b : Scalar) : option Scalar :=
  if Req_dec_T b 0 then None else Some (a / b).

Definition checked_sqrt (a : Scalar) : option Scalar :=
  if Rlt_dec a 0 then None else Some (sqrt a).

Definition bind {A B : Type} (c : option A) (k : A -> option B) : option B :=
  match c with
  | Some a => k a
  | None => None
  end.

Notation "x <- c ;; k" := (bind c (fun x => k))
  (at level 61, c at next level, right associativity).

Definition inverse_checked (ccd : IdealGenericCameraModel) (x y : Scalar)
  : option PointT :=
  pix_dist0 <- checked_div (x - u0 ccd) (fx ccd) ;;
  pix_dist1 <- checked_div (y - v0 ccd) (fy ccd) ;;
  let x2 := pix_dist0 * pix_dist0 in
  let y2 := pix_dist1 * pix_dist1 in
  let eps2 := epsilon ccd * epsilon ccd in
  root <- checked_sqrt (1 + (1 - eps2) * (x2 + y2)) ;;
  term <- checked_div (epsilon ccd + root) (x2 + y2 + 1) ;;
  Some (MkPoint (term * pix_dist0) (term * pix_dist1) (term - epsilon ccd)).

(** ** The closed forms as the specification words them *)

Module Spec.

(** Unprojection: [mx = (x-u0)/fx], [my = (y-v0)/fy], [s = mx^2 + my^2],
    [term = (epsilon + sqrt(1 + (1 - epsilon^2) s)) / (s + 1)], result
    [(term mx, term my, term - epsilon)]. *)
Definition inverse (m : IdealGenericCameraModel) (x y : R) : PointT :=
  let mx := (x - u0 m) / fx m in
  let my := (y - v0 m) / fy m in
  let s := mx ^ 2 + my ^ 2 in
  let term := (epsilon m + sqrt (1 + (1 - epsilon m ^ 2) * s)) / (s + 1) in
  MkPoint (term * mx) (term * my) (term - epsilon m).

(** Division of a ray by its Euclidean length. *)
Definition unit_vector (v : PointT) : PointT :=
  scale (/ norm v) v.

(** Projection: normalize, then [p = (x, y) / (z + epsilon)], then
    [pixel = (fx p.x + u0, fy p.y + v0)]. *)
Definition forward (m : IdealGenericCameraModel) (v : PointT) : PixelT :=
  let u := unit_vector v in
  let p := (pt0 u / (pt2 u + epsilon m), pt1 u / (pt2 u + epsilon m)) in
  MkPixel (fx m * fst p + u0 m) (fy m * snd p + v0 m).

End Spec.

(** The model of the end-to-end scenario: fx = fy = 500, principal point
    (320, 240), epsilon = 1/2, a 640 x 480 sensor, mask radii 0 and 300. *)
Definition scenario : IdealGenericCameraModel :=
  make 500 500 320 240 (1 / 2) 640 480 0 300.

(** The same sensor behind a mirror whose central obstruction has radius
    100. *)
Definition annulus : IdealGenericCameraModel :=
  make 500 500 320 240 (1 / 2) 640 480 100 300.

(** ** Reading an archive back

    [serialize] is one function template for both directions: given an
    input archive, each line fetches the value stored under its name into
    the coefficient it names. *)

(** Modelled from the spec: the macro [CAMERA_MODELS_SERIALIZE] used with
    an input archive, from the helper header that is not part of this file.
    The persisted form is a record of named fields, so one use of the macro
    looks the name up and assigns the value found to the coefficient; a
    name that is absent makes the whole load fail. *)
Definition CAMERA_MODELS_SERIALIZE_in (archive : Archive) (name : string)
                                      (m : IdealGenericCameraModel) (i : nat)
  : option IdealGenericCameraModel :=
  match lookup archive name with
  | Some v => Some (set_data m i v)
  | None => None
  end.

Definition serialize_in (archive : Archive) (version : N)
                        (m : IdealGenericCameraModel)
  : option IdealGenericCameraModel :=
  m <- CAMERA_MODELS_SERIALIZE_in archive "fx" m 0 ;;
  m <- CAMERA_MODELS_SERIALIZE_in archive "fy" m 1 ;;
  m <- CAMERA_MODELS_SERIALIZE_in archive "u0" m 2 ;;
  m <- CAMERA_MODELS_SERIALIZE_in archive "v0" m 3 ;;
  m <- CAMERA_MODELS_SERIALIZE_in archive "epsilon" m 4 ;;
  m <- CAMERA_MODELS_SERIALIZE_in archive "r1" m 5 ;;
  m <- CAMERA_MODELS_SERIALIZE_in archive "r2" m 6 ;;
  m <- CAMERA_MODELS_SERIALIZE_in archive "width" m 7 ;;
  CAMERA_MODELS_SERIALIZE_in archive "height" m 8.


(** ** The [Eigen::Map] variant: a view of nine cells of a caller's buffer

    The buffer is the shared store; a view holds only the position of its
    first coefficient, so two views of the same cells alias. *)

Definition Buffer : Type := list R.

(** [p[a]] read.  Past the end of the buffer the C++ access is undefined;
    the embedding reads zero there. *)
Definition buf_get (b : Buffer) (a : nat) : R := nth a b 0.

(** [p[a] = x] write.  Past the end of the buffer the C++ access is
    undefined; the embedding leaves the buffer as it is. *)
Fixpoint buf_set (b : Buffer) (a : nat) (x : R) : Buffer :=
  match b, a with
  | [], _ => []
  | _ :: t, O => x :: t
  | h :: t, S a' => h :: buf_set t a' x
  end.

(** [Map(Scalar* coeffs) : parameters(coeffs)] *)
Record MapModel : Type := MkMap { coeffs : nat }.

Definition map_data (v : MapModel) (b : Buffer) (i : nat) : Scalar :=
  buf_get b (coeffs v + i).

Definition map_set_data (v : MapModel) (b : Buffer) (i : nat) (x : Scalar)
  : Buffer :=
  buf_set b (coeffs v + i) x.

(** [access()] of a view: the nine cells it covers. *)
Definition map_access (v : MapModel) (b : Buffer) : ComplexType :=
  MkComplex (map_data v b 0) (map_data v b 1) (map_data v b 2)
            (map_data v b 3) (map_data v b 4) (map_data v b 5)
            (map_data v b 6) (map_data v b 7) (map_data v b 8).

(** [owned = view]: [access_nonconst() = other.access()], a copy of the
    nine values. *)
Definition assign_from_map (v : MapModel) (b : Buffer) : IdealGenericCameraModel :=
  MkModel (map_access v b).


(** [resizeViewport] with [Derived] the view: the same statements, every
    accessor and setter going to the buffer. *)
Definition map_resizeViewport (ccd : MapModel) (b : Buffer)
                              (new_width new_height : Scalar) : Buffer :=
  let x_ratio := new_width / map_data ccd b 5 in
  let y_ratio := new_height / map_data ccd b 6 in
  let r_ratio := std_min x_ratio y_ratio in
  let b := map_set_data ccd b 0 (map_data ccd b 0 * x_ratio) in
  let b := map_set_data ccd b 1 (map_data ccd b 1 * y_ratio) in
  let b := map_set_data ccd b 2 (map_data ccd b 2 * x_ratio) in
  let b := map_set_data ccd b 3 (map_data ccd b 3 * y_ratio) in
  let b := map_set_data ccd b 7 (map_data ccd b 7 * r_ratio) in
  let b := map_set_data ccd b 8 (map_data ccd b 8 * r_ratio) in
  let b := map_set_data ccd b 5 new_width in
  map_set_data ccd b 6 new_height.

End Camera.

Import Camera.

(** * Properties *)

(** ** Comparisons *)

Lemma Rltb_true (a b : R) : Rltb a b = true <-> a < b.
Proof. unfold Rltb; destruct (Rlt_dec a b); split; intros; try discriminate; tauto. Qed.

Lemma Rleb_true (a b : R) : Rleb a b = true <-> a <= b.
Proof. unfold Rleb; destruct (Rle_dec a b); split; intros; try discriminate; tauto. Qed.

Lemma Rgtb_true (a b : R) : Rgtb a b = true <-> b < a.
Proof. unfold Rgtb; destruct (Rgt_dec a b); split; intros; try discriminate; tauto. Qed.

Lemma Rgeb_true (a b : R) : Rgeb a b = true <-> b <= a.
Proof.
  unfold Rgeb; destruct (Rge_dec a b) as [H | H]; split; intros; try discriminate; auto.
  - lra.
  - exfalso; apply H; lra.
Qed.

Lemma Rleb_false (a b : R) : Rleb a b = false <-> b < a.
Proof.
  unfold Rleb; destruct (Rle_dec a b); split; intros; try discriminate; auto; lra.
Qed.

Lemma if_bool_id (b : bool) : (if b then true else false) = b.
Proof. destruct b; reflexivity. Qed.

Lemma std_min_Rmin (a b : R) : std_min a b = Rmin a b.
Proof.
  unfold std_min, Rmin.
  destruct (Rlt_dec b a), (Rle_dec a b); lra.
Qed.

(** ** Parameter storage *)

Lemma model_eta (m : IdealGenericCameraModel) :
  m = make (fx m) (fy m) (u0 m) (v0 m) (epsilon m) (width m) (height m) (r1 m) (r2 m).
Proof. destruct m as [[a0 a1 a2 a3 a4 a5 a6 a7 a8]]; reflexivity. Qed.

Lemma coeff_set_coeff_same (v : ComplexType) (i : nat) (x : Scalar) :
  (i < IdealGenericCameraModelParameterCount)%nat -> coeff (set_coeff v i x) i = x.
Proof.
  unfold IdealGenericCameraModelParameterCount; intros Hi.
  destruct v.
  do 9 (destruct i as [| i]; [reflexivity |]).
  lia.
Qed.

Lemma coeff_set_coeff_other (v : ComplexType) (i j : nat) (x : Scalar) :
  i <> j -> coeff (set_coeff v i x) j = coeff v j.
Proof.
  intros Hij; destruct v.
  do 9 (destruct i as [| i];
        [ do 9 (destruct j as [| j]; [ reflexivity || congruence |]); reflexivity |]).
  reflexivity.
Qed.

Lemma data_set_data_same (m : IdealGenericCameraModel) (i : nat) (x : Scalar) :
  (i < NumParameters)%nat -> data (set_data m i x) i = x.
Proof. apply coeff_set_coeff_same. Qed.

Lemma data_set_data_other (m : IdealGenericCameraModel) (i j : nat) (x : Scalar) :
  i <> j -> data (set_data m i x) j = data m j.
Proof. apply coeff_set_coeff_other. Qed.

(** ** Serialization *)

Lemma serialize_pairs (version : N) (m : IdealGenericCameraModel) :
  serialize [] version m =
  [ ("fx"%string, fx m); ("fy"%string, fy m); ("u0"%string, u0 m);
    ("v0"%string, v0 m); ("epsilon"%string, epsilon m);
    ("r1"%string, width m); ("r2"%string, height m);
    ("width"%string, r1 m); ("height"%string, r2 m) ].
Proof. reflexivity. Qed.

Lemma serialize_keys (version : N) (m : IdealGenericCameraModel) :
  keys (serialize [] version m) =
  [ "fx"; "fy"; "u0"; "v0"; "epsilon"; "r1"; "r2"; "width"; "height" ]%string.
Proof. reflexivity. Qed.

Lemma serialize_leading_values (version : N) (m : IdealGenericCameraModel)
                                (k : string) :
  In k [ "fx"; "fy"; "u0"; "v0"; "epsilon" ]%string ->
  lookup (serialize [] version m) k = named_parameter m k.
Proof.
  simpl; intros [H | [H | [H | [H | [H | []]]]]]; subst k; reflexivity.
Qed.

(** C1.  On the model of the end-to-end scenario the nine keys come out in
    the documented order, but the values under the four trailing keys are
    those of other parameters: key r1 carries the width 640 and not the
    inner radius 0, key r2 the height 480, key width the inner radius and
    key height the outer radius 300.  The value under a key is therefore
    not always the parameter of the same name. *)
Theorem serialize_scenario_mismatch :
  keys (serialize [] N0 scenario) =
    [ "fx"; "fy"; "u0"; "v0"; "epsilon"; "r1"; "r2"; "width"; "height" ]%string
  /\ lookup (serialize [] N0 scenario) "r1" = Some 640
  /\ named_parameter scenario "r1" = Some 0
  /\ lookup (serialize [] N0 scenario) "r2" = Some 480
  /\ named_parameter scenario "r2" = Some 300
  /\ lookup (serialize [] N0 scenario) "width" = Some 0
  /\ named_parameter scenario "width" = Some 640
  /\ lookup (serialize [] N0 scenario) "height" = Some 300
  /\ named_parameter scenario "height" = Some 480
  /\ lookup (serialize [] N0 scenario) "r1" <> named_parameter scenario "r1".
Proof.
  repeat split; try reflexivity.
  change (Some 640 <> Some 0).
  intros H; injection H; lra.
Qed.

(** ** Validity masks *)

(** C7.  [pixelValidSquare] holds exactly when [0 <= x < width] and
    [0 <= y < height]; it is false on the column [x = width] and the row
    [y = height], and the lower bounds [x = 0], [y = 0] are inside. *)
Theorem pixelValidSquare_iff (m : IdealGenericCameraModel) (x y : R) :
  (pixelValidSquare m x y = true <->
     0 <= x < width m /\ 0 <= y < height m)
  /\ pixelValidSquare m (width m) y = false
  /\ pixelValidSquare m x (height m) = false
  /\ (pixelValidSquare m 0 y = true <-> 0 < width m /\ 0 <= y < height m)
  /\ (pixelValidSquare m x 0 = true <-> 0 <= x < width m /\ 0 < height m).
Proof.
  assert (Hiff : forall a b, pixelValidSquare m a b = true <->
                             0 <= a < width m /\ 0 <= b < height m).
  { intros a b. unfold pixelValidSquare. rewrite if_bool_id.
    rewrite !andb_true_iff, !Rgeb_true, !Rltb_true. tauto. }
  split; [apply Hiff |].
  split.
  { apply not_true_is_false. rewrite Hiff. lra. }
  split.
  { apply not_true_is_false. rewrite Hiff. lra. }
  split; rewrite Hiff; lra.
Qed.

(** C5.  With [d2] the squared distance of the pixel to the principal
    point: when [r1 <= 0] the circular mask holds exactly when
    [d2 < r2^2]; when [r1 > 0] it holds exactly when [r1^2 < d2 < r2^2].
    Every comparison is strict and [r1 = 0] is the plain disk. *)
Theorem pixelValidCircular_iff (m : IdealGenericCameraModel) (x y : R) :
  let d2 := (x - u0 m) * (x - u0 m) + (y - v0 m) * (y - v0 m) in
  (r1 m <= 0 ->
     (pixelValidCircular m x y = true <-> d2 < r2 m * r2 m))
  /\ (r1 m > 0 ->
     (pixelValidCircular m x y = true <->
        r1 m * r1 m < d2 /\ d2 < r2 m * r2 m)).
Proof.
  intros d2; unfold pixelValidCircular; split; intros Hr.
  - apply Rleb_true in Hr; rewrite Hr.
    cbv zeta; rewrite if_bool_id, Rltb_true. reflexivity.
  - apply Rleb_false in Hr; rewrite Hr.
    cbv zeta; rewrite if_bool_id, andb_true_iff, Rgtb_true, Rltb_true.
    reflexivity.
Qed.

Lemma pixelValidCircular_witness :
  (r1 scenario <= 0 /\ pixelValidCircular scenario 320 240 = true)
  /\ (r1 annulus > 0 /\ pixelValidCircular annulus 320 240 = false
      /\ pixelValidCircular annulus 520 240 = true).
Proof.
  assert (H0 : r1 scenario <= 0)
    by (cbv [r1 data coeff access parameters scenario make c7]; lra).
  assert (H1 : r1 annulus > 0)
    by (cbv [annulus r1 data coeff access parameters make c7]; lra).
  split; [split; [exact H0 |] | split; [exact H1 | split]].
  - apply (proj1 (pixelValidCircular_iff scenario 320 240) H0).
    cbv [u0 v0 r2 data coeff access parameters scenario make c2 c3 c8]; lra.
  - apply not_true_is_false; intros H.
    apply (proj2 (pixelValidCircular_iff annulus 320 240) H1) in H.
    cbv [annulus u0 v0 r1 r2 data coeff access parameters make c2 c3 c7 c8] in H; lra.
  - apply (proj2 (pixelValidCircular_iff annulus 520 240) H1).
    cbv [annulus u0 v0 r1 r2 data coeff access parameters make c2 c3 c7 c8]; lra.
Defined.

(** ** Viewport rescaling *)

(** C6.  With the stored width [w1] and height [h1] nonzero, the ratios are
    taken from the values before the call and afterwards every focal and
    principal-point field is the old one times its axis ratio, both radii
    are the old ones times the smaller ratio, and the stored size is the
    new one. *)
Theorem resizeViewport_fields (m : IdealGenericCameraModel) (w2 h2 : R) :
  width m <> 0 -> height m <> 0 ->
  let xRatio := w2 / width m in
  let yRatio := h2 / height m in
  let rRatio := Rmin xRatio yRatio in
  let m' := resizeViewport m w2 h2 in
  fx m' = fx m * xRatio /\ fy m' = fy m * yRatio
  /\ u0 m' = u0 m * xRatio /\ v0 m' = v0 m * yRatio
  /\ r1 m' = r1 m * rRatio /\ r2 m' = r2 m * rRatio
  /\ width m' = w2 /\ height m' = h2.
Proof.
  intros _ _ xRatio yRatio rRatio m'.
  subst m' rRatio xRatio yRatio.
  rewrite <- std_min_Rmin.
  destruct m as [[a0 a1 a2 a3 a4 a5 a6 a7 a8]].
  repeat split; reflexivity.
Qed.

Lemma resizeViewport_witness :
  width scenario <> 0 /\ height scenario <> 0
  /\ fx (resizeViewport scenario 1280 960) = 1000
  /\ u0 (resizeViewport scenario 1280 960) = 640
  /\ r2 (resizeViewport scenario 1280 960) = 600
  /\ width (resizeViewport scenario 1280 960) = 1280
  /\ height (resizeViewport scenario 1280 960) = 960.
Proof.
  assert (Hw : width scenario <> 0)
    by (cbv [width data coeff access parameters scenario make c5]; lra).
  assert (Hh : height scenario <> 0)
    by (cbv [height data coeff access parameters scenario make c6]; lra).
  destruct (resizeViewport_fields scenario 1280 960 Hw Hh)
    as (Hfx & _ & Hu0 & _ & _ & Hr2 & Hwidth & Hheight).
  assert (Hmin : Rmin (1280 / width scenario) (960 / height scenario) = 2).
  { cbv [width height data coeff access parameters scenario make c5 c6].
    replace (1280 / 640) with 2 by lra. replace (960 / 480) with 2 by lra.
    apply Rmin_left; lra. }
  cbv zeta.
  rewrite Hfx, Hu0, Hr2, Hwidth, Hheight, Hmin.
  cbv [fx u0 r2 width height data coeff access parameters scenario make
       c0 c2 c5 c6 c8].
  repeat split; lra.
Defined.

(** C9.  [resizeViewport] never touches the shape parameter: coefficient 4,
    read by [epsilon], is the same before and after every call. *)
Theorem resizeViewport_epsilon (m : IdealGenericCameraModel) (w2 h2 : R) :
  epsilon (resizeViewport m w2 h2) = epsilon m
  /\ data (resizeViewport m w2 h2) 4 = data m 4.
Proof.
  destruct m as [[a0 a1 a2 a3 a4 a5 a6 a7 a8]]; split; reflexivity.
Qed.

(** ** Vectors *)

Lemma point_eq (a0 a1 a2 b0 b1 b2 : R) :
  a0 = b0 -> a1 = b1 -> a2 = b2 -> MkPoint a0 a1 a2 = MkPoint b0 b1 b2.
Proof. intros; subst; reflexivity. Qed.

Lemma pixel_eq (a0 a1 b0 b1 : R) :
  a0 = b0 -> a1 = b1 -> MkPixel a0 a1 = MkPixel b0 b1.
Proof. intros; subst; reflexivity. Qed.

Lemma squaredNorm_nonneg (p : PointT) : 0 <= squaredNorm p.
Proof. unfold squaredNorm; nra. Qed.

Lemma squaredNorm_pos (p : PointT) : nonzero p -> 0 < squaredNorm p.
Proof.
  intros Hp.
  destruct (Rle_lt_or_eq_dec _ _ (squaredNorm_nonneg p)) as [H | H]; [exact H |].
  exfalso; apply Hp.
  destruct p as [a b c]; unfold squaredNorm in H; simpl in H.
  apply point_eq; nra.
Qed.

Lemma normalized_nonzero (p : PointT) :
  nonzero p ->
  normalized p = MkPoint (pt0 p / norm p) (pt1 p / norm p) (pt2 p / norm p).
Proof.
  intros Hp; unfold normalized, norm.
  destruct (Rgtb (squaredNorm p) 0) eqn:E; [reflexivity |].
  apply squaredNorm_pos, Rgtb_true in Hp; congruence.
Qed.

Lemma norm_pos (p : PointT) : nonzero p -> 0 < norm p.
Proof. intros Hp; apply sqrt_lt_R0, squaredNorm_pos, Hp. Qed.

Lemma squaredNorm_normalized (p : PointT) :
  nonzero p -> squaredNorm (normalized p) = 1.
Proof.
  intros Hp; rewrite (normalized_nonzero p Hp).
  pose proof (norm_pos p Hp) as Hn.
  assert (Hsq : norm p * norm p = squaredNorm p)
    by (apply sqrt_sqrt, squaredNorm_nonneg).
  destruct p as [a b c]; unfold squaredNorm in *; simpl in *.
  set (n := norm (MkPoint a b c)) in *.
  replace (a / n * (a / n) + b / n * (b / n) + c / n * (c / n))
    with ((a * a + b * b + c * c) / (n * n)) by (field; lra).
  rewrite <- Hsq; field; lra.
Qed.

Lemma normalized_unit (p : PointT) : squaredNorm p = 1 -> normalized p = p.
Proof.
  intros H1; unfold normalized; rewrite H1, sqrt_1.
  destruct (Rgtb 1 0); [| reflexivity].
  destruct p as [a b c]; simpl; apply point_eq; field.
Qed.

Lemma normalized_scale (k : R) (p : PointT) :
  0 < k -> normalized (scale k p) = normalized p.
Proof.
  intros Hk.
  assert (Hsn : squaredNorm (scale k p) = (k * k) * squaredNorm p)
    by (unfold squaredNorm, scale; simpl; ring).
  unfold normalized; rewrite Hsn.
  assert (Hrt : sqrt (k * k * squaredNorm p) = k * sqrt (squaredNorm p)).
  { rewrite sqrt_mult; [| nra | apply squaredNorm_nonneg].
    rewrite sqrt_square; lra. }
  pose proof (squaredNorm_nonneg p) as Hnn.
  destruct (Rgtb (squaredNorm p) 0) eqn:E.
  - apply Rgtb_true in E.
    assert (E' : Rgtb (k * k * squaredNorm p) 0 = true).
    { apply Rgtb_true; repeat apply Rmult_lt_0_compat; assumption. }
    rewrite E', Hrt.
    pose proof (sqrt_lt_R0 _ E) as Hs.
    unfold scale; simpl; apply point_eq; field; lra.
  - assert (Hz : squaredNorm p = 0).
    { destruct (Rle_lt_or_eq_dec _ _ Hnn) as [H | H]; [| symmetry; exact H].
      apply Rgtb_true in H; congruence. }
    assert (E' : Rgtb (k * k * squaredNorm p) 0 = false).
    { apply not_true_is_false; rewrite Rgtb_true, Hz; lra. }
    rewrite E'.
    destruct p as [a b c]; unfold squaredNorm in Hz; simpl in Hz.
    assert (a = 0) by nra. assert (b = 0) by nra. assert (c = 0) by nra.
    subst; unfold scale; simpl; apply point_eq; ring.
Qed.

(** ** Projection *)

(** [forward] in terms of the unit vector of its argument. *)
Lemma forward_of_normalized (m : IdealGenericCameraModel) (v : PointT) :
  forward m v =
  MkPixel (fx m * (pt0 (normalized v) / (pt2 (normalized v) + epsilon m)) + u0 m)
          (fy m * (pt1 (normalized v) / (pt2 (normalized v) + epsilon m)) + v0 m).
Proof. reflexivity. Qed.

Lemma unit_vector_normalized (v : PointT) :
  nonzero v -> Spec.unit_vector v = normalized v.
Proof.
  intros Hv; rewrite (normalized_nonzero v Hv).
  unfold Spec.unit_vector, scale.
  apply point_eq; unfold Rdiv; ring.
Qed.

Lemma normalized_axis : normalized (MkPoint 0 0 1) = MkPoint 0 0 1.
Proof. apply normalized_unit; unfold squaredNorm; simpl; ring. Qed.

(** C8.  For a nonzero ray [v], [forward] is the three documented steps
    (unit vector, division of its first two rows by [z + epsilon], affine
    intrinsics); a positive multiple of [v] has the same image; and the
    optical axis [(0,0,1)] goes to the principal point when
    [1 + epsilon <> 0]. *)
Theorem forward_steps (m : IdealGenericCameraModel) (v : PointT) :
  nonzero v ->
  norm (normalized v) = 1
  /\ forward m v = Spec.forward m v
  /\ (forall k : R, 0 < k -> forward m (scale k v) = forward m v)
  /\ (1 + epsilon m <> 0 -> forward m (MkPoint 0 0 1) = MkPixel (u0 m) (v0 m)).
Proof.
  intros Hv; split; [| split; [| split]].
  - unfold norm; rewrite (squaredNorm_normalized v Hv); apply sqrt_1.
  - unfold Spec.forward; cbv zeta.
    rewrite (unit_vector_normalized v Hv); reflexivity.
  - intros k Hk.
    rewrite !forward_of_normalized, (normalized_scale k v Hk); reflexivity.
  - intros Heps.
    rewrite forward_of_normalized, normalized_axis; simpl.
    apply pixel_eq; field; lra.
Qed.

Lemma forward_steps_witness :
  nonzero (MkPoint 0 0 1)
  /\ forward scenario (scale 2 (MkPoint 0 0 1)) = forward scenario (MkPoint 0 0 1)
  /\ forward scenario (MkPoint 0 0 1) = MkPixel 320 240.
Proof.
  assert (Hnz : nonzero (MkPoint 0 0 1)).
  { intros H; injection H; lra. }
  split; [exact Hnz |].
  destruct (forward_steps scenario (MkPoint 0 0 1) Hnz) as (_ & _ & Hscale & Haxis).
  split.
  - apply Hscale; lra.
  - rewrite Haxis; [reflexivity |].
    cbv [epsilon data coeff access parameters scenario make c4]; lra.
Defined.

(** ** Unprojection *)

(** C3.  With [fx] and [fy] nonzero, [inverse] is the documented closed
    form: one expression in [mx], [my], [s] and [term], the same for every
    pixel. *)
Theorem inverse_closed_form (m : IdealGenericCameraModel) (x y : R) :
  fx m <> 0 -> fy m <> 0 ->
  inverse m x y = Spec.inverse m x y.
Proof.
  intros _ _.
  assert (Hsq : forall a : R, a ^ 2 = a * a) by (intros; ring).
  unfold inverse, Spec.inverse; cbv zeta.
  rewrite !Hsq; reflexivity.
Qed.

Lemma inverse_closed_form_witness :
  fx scenario <> 0 /\ fy scenario <> 0
  /\ inverse scenario 320 240 = Spec.inverse scenario 320 240.
Proof.
  assert (Hfx : fx scenario <> 0)
    by (cbv [fx data coeff access parameters scenario make c0]; lra).
  assert (Hfy : fy scenario <> 0)
    by (cbv [fy data coeff access parameters scenario make c1]; lra).
  split; [exact Hfx | split; [exact Hfy |]].
  apply (inverse_closed_form scenario 320 240 Hfx Hfy).
Defined.

(** The algebra behind the unit sphere: for [D = 1 + (1 - e^2) s >= 0],
    [term = (e + sqrt D) / (s + 1)] and [s >= 0],
    [term^2 s + (term - e)^2 = 1]. *)
Lemma sphere_identity (e s : R) :
  0 <= s -> 0 <= 1 + (1 - e * e) * s ->
  let term := (e + sqrt (1 + (1 - e * e) * s)) / (s + 1) in
  term * term * s + (term - e) * (term - e) = 1.
Proof.
  intros Hs HD term.
  set (rt := sqrt (1 + (1 - e * e) * s)) in *.
  assert (Hrt : rt * rt = 1 + (1 - e * e) * s) by (apply sqrt_sqrt; exact HD).
  assert (Ht : term * (s + 1) = e + rt) by (unfold term; field; lra).
  assert (Hk : term * (rt - e) = 1 - e * e).
  { apply Rmult_eq_reg_r with (s + 1); [| lra].
    replace (term * (rt - e) * (s + 1)) with (term * (s + 1) * (rt - e)) by ring.
    rewrite Ht.
    replace ((e + rt) * (rt - e)) with (rt * rt - e * e) by ring.
    rewrite Hrt; ring. }
  replace (term * term * s + (term - e) * (term - e))
    with (term * (term * (s + 1)) - 2 * term * e + e * e) by ring.
  rewrite Ht.
  replace (term * (e + rt) - 2 * term * e + e * e)
    with (term * (rt - e) + e * e) by ring.
  rewrite Hk; ring.
Qed.

Lemma squaredNorm_inverse (m : IdealGenericCameraModel) (x y : R) :
  Rabs (epsilon m) <= 1 -> squaredNorm (inverse m x y) = 1.
Proof.
  intros He.
  assert (He2 : epsilon m * epsilon m <= 1).
  { unfold Rabs in He; destruct (Rcase_abs (epsilon m)); nra. }
  set (a := (x - u0 m) / fx m).
  set (b := (y - v0 m) / fy m).
  assert (Hs : 0 <= a * a + b * b) by nra.
  assert (HD : 0 <= 1 + (1 - epsilon m * epsilon m) * (a * a + b * b)) by nra.
  pose proof (sphere_identity (epsilon m) (a * a + b * b) Hs HD) as Hid.
  cbv zeta in Hid.
  unfold inverse, squaredNorm; cbv zeta; simpl.
  fold a b.
  etransitivity; [| exact Hid]; ring.
Qed.

(** C4.  For [epsilon] in [[0,1]] and [fx], [fy] nonzero, the vector
    returned by [inverse] has Euclidean norm 1 at every pixel. *)
Theorem inverse_unit_norm (m : IdealGenericCameraModel) (x y : R) :
  0 <= epsilon m <= 1 -> fx m <> 0 -> fy m <> 0 ->
  norm (inverse m x y) = 1.
Proof.
  intros He _ _.
  unfold norm; rewrite squaredNorm_inverse; [apply sqrt_1 |].
  apply Rabs_le; lra.
Qed.

Lemma inverse_unit_norm_witness :
  (0 <= epsilon scenario <= 1 /\ fx scenario <> 0 /\ fy scenario <> 0)
  /\ norm (inverse scenario 100 37) = 1.
Proof.
  assert (He : 0 <= epsilon scenario <= 1)
    by (cbv [epsilon data coeff access parameters scenario make c4]; lra).
  assert (Hfx : fx scenario <> 0)
    by (cbv [fx data coeff access parameters scenario make c0]; lra).
  assert (Hfy : fy scenario <> 0)
    by (cbv [fy data coeff access parameters scenario make c1]; lra).
  split; [split; [exact He | split; [exact Hfx | exact Hfy]] |].
  apply (inverse_unit_norm scenario 100 37 He Hfx Hfy).
Defined.

(** ** Definedness of the unprojection *)

Lemma checked_div_some (a b : R) : b <> 0 -> checked_div a b = Some (a / b).
Proof. intros Hb; unfold checked_div; destruct (Req_dec_T b 0); tauto. Qed.

Lemma checked_div_none (a b : R) : b = 0 -> checked_div a b = None.
Proof. intros Hb; unfold checked_div; destruct (Req_dec_T b 0); tauto. Qed.

Lemma checked_sqrt_some (a : R) : 0 <= a -> checked_sqrt a = Some (sqrt a).
Proof.
  intros Ha; unfold checked_sqrt; destruct (Rlt_dec a 0); [lra | reflexivity].
Qed.

(** Whatever the guarded embedding returns is what [inverse] returns. *)
Lemma inverse_checked_sound (m : IdealGenericCameraModel) (x y : R) (p : PointT) :
  inverse_checked m x y = Some p -> p = inverse m x y.
Proof.
  unfold inverse_checked, inverse, bind, checked_div, checked_sqrt.
  repeat match goal with
         | |- context [if ?c then _ else _] => destruct c
         end; intros H; try discriminate; injection H; intros <-; reflexivity.
Qed.

Lemma inverse_checked_some (m : IdealGenericCameraModel) (x y : R) :
  fx m <> 0 -> fy m <> 0 -> Rabs (epsilon m) <= 1 ->
  inverse_checked m x y = Some (inverse m x y).
Proof.
  intros Hfx Hfy He.
  assert (He2 : epsilon m * epsilon m <= 1).
  { unfold Rabs in He; destruct (Rcase_abs (epsilon m)); nra. }
  unfold inverse_checked.
  rewrite (checked_div_some _ _ Hfx); simpl.
  rewrite (checked_div_some _ _ Hfy); simpl.
  set (a := (x - u0 m) / fx m).
  set (b := (y - v0 m) / fy m).
  rewrite checked_sqrt_some by nra; simpl.
  rewrite checked_div_some by nra; simpl.
  reflexivity.
Qed.

Lemma inverse_checked_none (m : IdealGenericCameraModel) (x y : R) :
  fx m = 0 \/ fy m = 0 -> inverse_checked m x y = None.
Proof.
  intros H; unfold inverse_checked.
  destruct (Req_dec_T (fx m) 0) as [Hfx | Hfx].
  - rewrite (checked_div_none _ _ Hfx); reflexivity.
  - destruct H as [H | H]; [contradiction |].
    rewrite (checked_div_some _ _ Hfx), (checked_div_none _ _ H); reflexivity.
Qed.

(** C10.  Inside [inverse] the divisor [s + 1] is at least 1 and, for
    [|epsilon| <= 1], so is the argument of the square root.  Hence with
    [fx <> 0], [fy <> 0] and [|epsilon| <= 1] every step is defined and the
    guarded embedding returns the value of [inverse]; with [fx = 0] or
    [fy = 0] it fails, and for [|epsilon| <= 1] those are its only
    failures.  The default-constructed model, all zero, is such a case. *)
Theorem inverse_defined (m : IdealGenericCameraModel) (x y : R) :
  let mx := (x - u0 m) / fx m in
  let my := (y - v0 m) / fy m in
  let s := mx * mx + my * my in
  1 <= s + 1
  /\ (Rabs (epsilon m) <= 1 -> 1 <= 1 + (1 - epsilon m * epsilon m) * s)
  /\ (fx m <> 0 -> fy m <> 0 -> Rabs (epsilon m) <= 1 ->
      inverse_checked m x y = Some (inverse m x y))
  /\ (fx m = 0 \/ fy m = 0 -> inverse_checked m x y = None)
  /\ (Rabs (epsilon m) <= 1 -> inverse_checked m x y = None ->
      fx m = 0 \/ fy m = 0)
  /\ inverse_checked default_model x y = None.
Proof.
  intros mx my s.
  assert (Hs : 0 <= s) by (unfold s; nra).
  split; [lra |].
  split.
  { intros He.
    assert (He2 : epsilon m * epsilon m <= 1).
    { unfold Rabs in He; destruct (Rcase_abs (epsilon m)); nra. }
    nra. }
  split; [apply inverse_checked_some |].
  split; [apply inverse_checked_none |].
  split.
  { intros He Hnone.
    destruct (Req_dec_T (fx m) 0) as [Hfx | Hfx]; [left; exact Hfx |].
    destruct (Req_dec_T (fy m) 0) as [Hfy | Hfy]; [right; exact Hfy |].
    rewrite (inverse_checked_some m x y Hfx Hfy He) in Hnone; discriminate. }
  apply inverse_checked_none; left; reflexivity.
Qed.

Lemma inverse_defined_witness :
  (fx scenario <> 0 /\ fy scenario <> 0 /\ Rabs (epsilon scenario) <= 1)
  /\ inverse_checked scenario 320 240 = Some (inverse scenario 320 240)
  /\ inverse_checked (make 0 500 320 240 (1 / 2) 640 480 0 300) 320 240 = None.
Proof.
  assert (Hfx : fx scenario <> 0)
    by (cbv [fx data coeff access parameters scenario make c0]; lra).
  assert (Hfy : fy scenario <> 0)
    by (cbv [fy data coeff access parameters scenario make c1]; lra).
  assert (He : Rabs (epsilon scenario) <= 1).
  { cbv [epsilon data coeff access parameters scenario make c4].
    apply Rabs_le; lra. }
  split; [split; [exact Hfx | split; [exact Hfy | exact He]] |].
  split.
  - destruct (inverse_defined scenario 320 240) as (_ & _ & Hsome & _).
    exact (Hsome Hfx Hfy He).
  - destruct (inverse_defined (make 0 500 320 240 (1 / 2) 640 480 0 300) 320 240)
      as (_ & _ & _ & Hnone & _).
    apply Hnone; left; reflexivity.
Defined.

(** ** Round trip through the image plane *)

(** For a unit vector [(a, b, c)] in front of the projection centre,
    [c + e > 0], the factor [term] computed from its image-plane point is
    [c + e] again. *)
Lemma term_of_projection (e a b c : R) :
  a * a + b * b + c * c = 1 -> 0 <= e < 1 -> 0 < c + e ->
  let mx := a / (c + e) in
  let my := b / (c + e) in
  let s := mx * mx + my * my in
  (e + sqrt (1 + (1 - e * e) * s)) / (s + 1) = c + e.
Proof.
  intros Hu He Hq mx my s.
  assert (Hab : a * a + b * b = 1 - c * c) by lra.
  assert (Hc : -1 <= c <= 1) by nra.
  assert (Hs : s = (1 - c * c) / ((c + e) * (c + e))).
  { unfold s, mx, my; rewrite <- Hab; field; lra. }
  assert (Hw : 0 <= (1 + e * c) / (c + e)).
  { apply Rmult_le_pos; [nra | left; apply Rinv_0_lt_compat; exact Hq]. }
  assert (HD : 1 + (1 - e * e) * s
               = (1 + e * c) / (c + e) * ((1 + e * c) / (c + e))).
  { rewrite Hs; field; lra. }
  rewrite HD, (sqrt_square _ Hw), Hs.
  assert (Hden : 1 - c * c + (c + e) * (c + e) <> 0) by nra.
  field; split; [lra | exact Hden].
Qed.

(** Where the ray is in front of the projection centre, [inverse] undoes
    [forward] and hands back the unit vector of the ray. *)
Lemma inverse_forward (m : IdealGenericCameraModel) (d : PointT) :
  0 <= epsilon m < 1 -> fx m <> 0 -> fy m <> 0 -> nonzero d ->
  0 < pt2 (normalized d) + epsilon m ->
  inverse m (px0 (forward m d)) (px1 (forward m d)) = normalized d.
Proof.
  intros He Hfx Hfy Hd Hq.
  pose proof (squaredNorm_normalized d Hd) as Hu.
  rewrite forward_of_normalized; simpl.
  destruct (normalized d) as [a b c]; unfold squaredNorm in Hu; simpl in *.
  pose proof (term_of_projection (epsilon m) a b c Hu He Hq) as Hterm.
  cbv zeta in Hterm.
  unfold inverse; cbv zeta.
  replace ((fx m * (a / (c + epsilon m)) + u0 m - u0 m) / fx m)
    with (a / (c + epsilon m)) by (field; lra).
  replace ((fy m * (b / (c + epsilon m)) + v0 m - v0 m) / fy m)
    with (b / (c + epsilon m)) by (field; lra).
  rewrite Hterm.
  apply point_eq; field; lra.
Qed.

(** C2, for rays in front of the projection centre.  For [epsilon] in
    [[0,1)], [fx] and [fy] nonzero and a nonzero ray [d] whose unit vector
    has [z + epsilon > 0], normalizing [inverse (forward d)] gives exactly
    the normalization of [d]. *)
Theorem inverse_forward_normalized (m : IdealGenericCameraModel) (d : PointT) :
  0 <= epsilon m < 1 -> fx m <> 0 -> fy m <> 0 -> nonzero d ->
  0 < pt2 (normalized d) + epsilon m ->
  normalized (inverse m (px0 (forward m d)) (px1 (forward m d))) = normalized d.
Proof.
  intros He Hfx Hfy Hd Hq.
  rewrite (inverse_forward m d He Hfx Hfy Hd Hq).
  apply normalized_unit, squaredNorm_normalized, Hd.
Qed.

Lemma inverse_forward_normalized_witness :
  (0 <= epsilon scenario < 1 /\ fx scenario <> 0 /\ fy scenario <> 0
   /\ nonzero (MkPoint 0 0 1)
   /\ 0 < pt2 (normalized (MkPoint 0 0 1)) + epsilon scenario)
  /\ normalized (inverse scenario (px0 (forward scenario (MkPoint 0 0 1)))
                                  (px1 (forward scenario (MkPoint 0 0 1))))
     = normalized (MkPoint 0 0 1).
Proof.
  assert (He : 0 <= epsilon scenario < 1)
    by (cbv [epsilon data coeff access parameters scenario make c4]; lra).
  assert (Hfx : fx scenario <> 0)
    by (cbv [fx data coeff access parameters scenario make c0]; lra).
  assert (Hfy : fy scenario <> 0)
    by (cbv [fy data coeff access parameters scenario make c1]; lra).
  assert (Hd : nonzero (MkPoint 0 0 1)) by (intros H; injection H; lra).
  assert (Hq : 0 < pt2 (normalized (MkPoint 0 0 1)) + epsilon scenario).
  { rewrite normalized_axis; simpl.
    cbv [epsilon data coeff access parameters scenario make c4]; lra. }
  split; [repeat split; try assumption; lra |].
  apply (inverse_forward_normalized scenario (MkPoint 0 0 1) He Hfx Hfy Hd Hq).
Defined.

(** C2 without that restriction fails.  On the scenario model
    ([epsilon = 1/2], [fx = fy = 500]) the ray [(0,0,-1)] is nonzero, its
    image is the principal point, and [inverse] of the principal point is
    [(0,0,1)]: the opposite direction. *)
Lemma inverse_forward_behind_centre :
  0 <= epsilon scenario < 1 /\ fx scenario <> 0 /\ fy scenario <> 0
  /\ nonzero (MkPoint 0 0 (-1))
  /\ forward scenario (MkPoint 0 0 (-1)) = MkPixel 320 240
  /\ inverse scenario 320 240 = MkPoint 0 0 1
  /\ normalized (MkPoint 0 0 (-1)) = MkPoint 0 0 (-1)
  /\ normalized (inverse scenario (px0 (forward scenario (MkPoint 0 0 (-1))))
                                  (px1 (forward scenario (MkPoint 0 0 (-1)))))
     <> normalized (MkPoint 0 0 (-1)).
Proof.
  assert (Hn : normalized (MkPoint 0 0 (-1)) = MkPoint 0 0 (-1)).
  { apply normalized_unit; unfold squaredNorm; simpl; ring. }
  assert (Hf : forward scenario (MkPoint 0 0 (-1)) = MkPixel 320 240).
  { rewrite forward_of_normalized, Hn; simpl.
    cbv [fx fy u0 v0 epsilon data coeff access parameters scenario make
         c0 c1 c2 c3 c4].
    apply pixel_eq; field; lra. }
  assert (Hi : inverse scenario 320 240 = MkPoint 0 0 1).
  { unfold inverse; cbv zeta.
    cbv [fx fy u0 v0 epsilon data coeff access parameters scenario make
         c0 c1 c2 c3 c4].
    replace (1 + (1 - 1 / 2 * (1 / 2))
               * ((320 - 320) / 500 * ((320 - 320) / 500)
                  + (240 - 240) / 500 * ((240 - 240) / 500)))
      with 1 by field.
    rewrite sqrt_1.
    apply point_eq; field. }
  split; [cbv [epsilon data coeff access parameters scenario make c4]; lra |].
  split; [cbv [fx data coeff access parameters scenario make c0]; lra |].
  split; [cbv [fy data coeff access parameters scenario make c1]; lra |].
  split; [intros H; injection H; lra |].
  split; [exact Hf |].
  split; [exact Hi |].
  split; [exact Hn |].
  rewrite Hf; simpl; rewrite Hi, Hn.
  rewrite normalized_axis.
  intros H; injection H; lra.
Qed.

(** * Further properties of the projection *)

Lemma Rabs_le_1_sqr (e : R) : Rabs e <= 1 -> e * e <= 1.
Proof. intros He; unfold Rabs in He; destruct (Rcase_abs e); nra. Qed.

(** The factor [term] of [inverse] is positive for [-1 < e <= 1]. *)
Lemma term_pos (e s : R) :
  -1 < e <= 1 -> 0 <= s ->
  0 < (e + sqrt (1 + (1 - e * e) * s)) / (s + 1).
Proof.
  intros He Hs.
  assert (He2 : 0 <= 1 - e * e) by nra.
  pose proof (Rmult_le_pos _ _ He2 Hs) as Hprod.
  assert (Hrt : 1 <= sqrt (1 + (1 - e * e) * s)).
  { rewrite <- sqrt_1 at 1; apply sqrt_le_1; lra. }
  unfold Rdiv; apply Rmult_lt_0_compat; [lra | apply Rinv_0_lt_compat; lra].
Qed.

Lemma inverse_components (m : IdealGenericCameraModel) (x y : R) :
  let mx := (x - u0 m) / fx m in
  let my := (y - v0 m) / fy m in
  let term := (epsilon m + sqrt (1 + (1 - epsilon m * epsilon m) * (mx * mx + my * my)))
              / (mx * mx + my * my + 1) in
  inverse m x y = MkPoint (term * mx) (term * my) (term - epsilon m).
Proof. reflexivity. Qed.

Lemma forward_inverse_pixel (m : IdealGenericCameraModel) (x y : R) :
  -1 < epsilon m <= 1 -> fx m <> 0 -> fy m <> 0 ->
  forward m (inverse m x y) = MkPixel x y.
Proof.
  intros He Hfx Hfy.
  assert (Habs : Rabs (epsilon m) <= 1) by (apply Rabs_le; lra).
  rewrite forward_of_normalized.
  rewrite (normalized_unit _ (squaredNorm_inverse m x y Habs)).
  rewrite inverse_components; cbv zeta; simpl.
  set (mx := (x - u0 m) / fx m).
  set (my := (y - v0 m) / fy m).
  assert (Hs : 0 <= mx * mx + my * my) by nra.
  pose proof (term_pos (epsilon m) (mx * mx + my * my) He Hs) as Ht.
  set (term := (epsilon m + sqrt (1 + (1 - epsilon m * epsilon m)
                                        * (mx * mx + my * my)))
               / (mx * mx + my * my + 1)) in *.
  apply pixel_eq; unfold mx, my; field; lra.
Qed.

Lemma scenario_fx : fx scenario <> 0.
Proof. cbv [fx data coeff access parameters scenario make c0]; lra. Defined.

Lemma scenario_fy : fy scenario <> 0.
Proof. cbv [fy data coeff access parameters scenario make c1]; lra. Defined.

Lemma scenario_eps_range : -1 < epsilon scenario <= 1.
Proof. cbv [epsilon data coeff access parameters scenario make c4]; lra. Defined.

(** X1.  For [-1 < epsilon <= 1] and [fx], [fy] nonzero, projecting the ray
    that [inverse] returns for a pixel gives that pixel back, so [forward]
    undoes [inverse] on the whole image plane and two pixels with the same
    ray are the same pixel. *)
Theorem forward_inverse_id (m : IdealGenericCameraModel) (x y : R) :
  -1 < epsilon m <= 1 -> fx m <> 0 -> fy m <> 0 ->
  forward m (inverse m x y) = MkPixel x y
  /\ (forall x' y' : R,
        inverse m x y = inverse m x' y' -> x = x' /\ y = y').
Proof.
  intros He Hfx Hfy; split.
  - apply forward_inverse_pixel; assumption.
  - intros x' y' Heq.
    pose proof (forward_inverse_pixel m x y He Hfx Hfy) as H1.
    pose proof (forward_inverse_pixel m x' y' He Hfx Hfy) as H2.
    rewrite Heq, H2 in H1.
    injection H1; intros; subst; split; reflexivity.
Qed.

Lemma forward_inverse_id_witness :
  (-1 < epsilon scenario <= 1 /\ fx scenario <> 0 /\ fy scenario <> 0)
  /\ forward scenario (inverse scenario 100 37) = MkPixel 100 37.
Proof.
  split; [exact (conj scenario_eps_range (conj scenario_fx scenario_fy)) |].
  exact (proj1 (forward_inverse_id scenario 100 37
                  scenario_eps_range scenario_fx scenario_fy)).
Defined.



(** X3.  Whatever the shape parameter, the principal point unprojects to
    the optical axis [(0,0,1)] (for [fx], [fy] nonzero). *)
Theorem inverse_principal_point (m : IdealGenericCameraModel) :
  fx m <> 0 -> fy m <> 0 -> inverse m (u0 m) (v0 m) = MkPoint 0 0 1.
Proof.
  intros Hfx Hfy.
  rewrite inverse_components; cbv zeta.
  replace ((u0 m - u0 m) / fx m) with 0 by (field; exact Hfx).
  replace ((v0 m - v0 m) / fy m) with 0 by (field; exact Hfy).
  replace (1 + (1 - epsilon m * epsilon m) * (0 * 0 + 0 * 0)) with 1 by ring.
  rewrite sqrt_1.
  apply point_eq; field.
Qed.

Lemma inverse_principal_point_witness :
  (fx scenario <> 0 /\ fy scenario <> 0)
  /\ inverse scenario (u0 scenario) (v0 scenario) = MkPoint 0 0 1.
Proof.
  split; [exact (conj scenario_fx scenario_fy) |].
  exact (inverse_principal_point scenario scenario_fx scenario_fy).
Defined.

(** ** The pinhole case, [epsilon = 0] *)

Lemma forward_pinhole (m : IdealGenericCameraModel) (d : PointT) :
  epsilon m = 0 -> pt2 d <> 0 ->
  forward m d = MkPixel (fx m * (pt0 d / pt2 d) + u0 m)
                        (fy m * (pt1 d / pt2 d) + v0 m).
Proof.
  intros He Hz.
  assert (Hd : nonzero d).
  { intros H; apply Hz; rewrite H; reflexivity. }
  pose proof (norm_pos d Hd) as Hn.
  rewrite forward_of_normalized, (normalized_nonzero d Hd), He; simpl.
  apply pixel_eq; field; lra.
Qed.

(** X4.  With [epsilon = 0] the model is the pinhole camera: a ray
    [(X, Y, Z)] with [Z <> 0] goes to [(fx X/Z + u0, fy Y/Z + v0)], and the
    opposite ray [(-X, -Y, -Z)] goes to the same pixel. *)
Theorem forward_pinhole_opposite (m : IdealGenericCameraModel) (d : PointT) :
  epsilon m = 0 -> pt2 d <> 0 ->
  forward m d = MkPixel (fx m * (pt0 d / pt2 d) + u0 m)
                        (fy m * (pt1 d / pt2 d) + v0 m)
  /\ forward m (scale (-1) d) = forward m d.
Proof.
  intros He Hz; split; [apply forward_pinhole; assumption |].
  assert (Hz' : pt2 (scale (-1) d) <> 0) by (simpl; lra).
  rewrite (forward_pinhole m d He Hz), (forward_pinhole m _ He Hz'); simpl.
  apply pixel_eq; field; lra.
Qed.

Lemma forward_pinhole_opposite_witness :
  (epsilon (make4 500 500 320 240) = 0 /\ pt2 (MkPoint 1 2 4) <> 0)
  /\ forward (make4 500 500 320 240) (scale (-1) (MkPoint 1 2 4))
     = forward (make4 500 500 320 240) (MkPoint 1 2 4).
Proof.
  assert (Hz : pt2 (MkPoint 1 2 4) <> 0) by (simpl; lra).
  split; [exact (conj eq_refl Hz) |].
  exact (proj2 (forward_pinhole_opposite (make4 500 500 320 240)
                  (MkPoint 1 2 4) eq_refl Hz)).
Defined.



(** ** Where the guarded unprojection fails *)

Lemma checked_sqrt_none (a : R) : a < 0 -> checked_sqrt a = None.
Proof.
  intros Ha; unfold checked_sqrt; destruct (Rlt_dec a 0); [reflexivity | lra].
Qed.

(** X6.  For any shape parameter the guarded unprojection fails exactly
    when [fx = 0], or [fy = 0], or the argument of the square root,
    [1 + (1 - epsilon^2) s], is negative; the last can only happen for
    [|epsilon| > 1]. *)
Theorem inverse_checked_fails_iff (m : IdealGenericCameraModel) (x y : R) :
  let mx := (x - u0 m) / fx m in
  let my := (y - v0 m) / fy m in
  let s := mx * mx + my * my in
  (inverse_checked m x y = None <->
     fx m = 0 \/ fy m = 0 \/ 1 + (1 - epsilon m * epsilon m) * s < 0)
  /\ (1 + (1 - epsilon m * epsilon m) * s < 0 -> 1 < Rabs (epsilon m)).
Proof.
  intros mx my s.
  assert (Hs : 0 <= s) by (unfold s; nra).
  split.
  - destruct (Req_dec_T (fx m) 0) as [Hfx | Hfx].
    { rewrite inverse_checked_none by (left; exact Hfx); tauto. }
    destruct (Req_dec_T (fy m) 0) as [Hfy | Hfy].
    { rewrite inverse_checked_none by (right; exact Hfy); tauto. }
    unfold inverse_checked.
    rewrite (checked_div_some _ _ Hfx); simpl.
    rewrite (checked_div_some _ _ Hfy); simpl.
    fold mx my s.
    destruct (Rlt_dec (1 + (1 - epsilon m * epsilon m) * s) 0) as [Hneg | Hpos].
    + rewrite (checked_sqrt_none _ Hneg); simpl; tauto.
    + rewrite checked_sqrt_some by lra; simpl.
      rewrite checked_div_some by lra; simpl.
      split; [discriminate | intros [H | [H | H]]; contradiction].
  - intros Hneg.
    destruct (Rle_lt_dec (Rabs (epsilon m)) 1) as [Hle | Hgt]; [| exact Hgt].
    apply Rabs_le_1_sqr in Hle.
    assert (0 <= (1 - epsilon m * epsilon m) * s) by (apply Rmult_le_pos; lra).
    lra.
Qed.

Lemma inverse_checked_fails_iff_witness :
  1 + (1 - epsilon (make 1 1 0 0 2 0 0 0 0) * epsilon (make 1 1 0 0 2 0 0 0 0))
      * ((1 - u0 (make 1 1 0 0 2 0 0 0 0)) / fx (make 1 1 0 0 2 0 0 0 0)
         * ((1 - u0 (make 1 1 0 0 2 0 0 0 0)) / fx (make 1 1 0 0 2 0 0 0 0))
         + (0 - v0 (make 1 1 0 0 2 0 0 0 0)) / fy (make 1 1 0 0 2 0 0 0 0)
           * ((0 - v0 (make 1 1 0 0 2 0 0 0 0)) / fy (make 1 1 0 0 2 0 0 0 0))) < 0
  /\ inverse_checked (make 1 1 0 0 2 0 0 0 0) 1 0 = None.
Proof.
  assert (Hneg :
    1 + (1 - epsilon (make 1 1 0 0 2 0 0 0 0) * epsilon (make 1 1 0 0 2 0 0 0 0))
      * ((1 - u0 (make 1 1 0 0 2 0 0 0 0)) / fx (make 1 1 0 0 2 0 0 0 0)
         * ((1 - u0 (make 1 1 0 0 2 0 0 0 0)) / fx (make 1 1 0 0 2 0 0 0 0))
         + (0 - v0 (make 1 1 0 0 2 0 0 0 0)) / fy (make 1 1 0 0 2 0 0 0 0)
           * ((0 - v0 (make 1 1 0 0 2 0 0 0 0)) / fy (make 1 1 0 0 2 0 0 0 0))) < 0).
  { cbv [epsilon u0 v0 fx fy data coeff access parameters make c0 c1 c2 c3 c4].
    lra. }
  split; [exact Hneg |].
  apply (proj2 (proj1 (inverse_checked_fails_iff (make 1 1 0 0 2 0 0 0 0) 1 0))).
  right; right; exact Hneg.
Defined.

(** * Further properties of the viewport rescaling *)

(** Reduce every accessor and setter applied to an explicit model. *)
Ltac model_fields :=
  cbv [resizeViewport set_fx set_fy set_u0 set_v0 set_epsilon set_width
       set_height set_r1 set_r2 fx fy u0 v0 epsilon width height r1 r2
       data set_data coeff set_coeff access parameters make
       c0 c1 c2 c3 c4 c5 c6 c7 c8] in *.

Lemma std_min_same (k : R) : std_min k k = k.
Proof. unfold std_min; destruct (Rlt_dec k k); reflexivity. Qed.

Lemma pixelValidSquare_true (m : IdealGenericCameraModel) (x y : R) :
  pixelValidSquare m x y = true <-> 0 <= x < width m /\ 0 <= y < height m.
Proof.
  unfold pixelValidSquare; rewrite if_bool_id.
  rewrite !andb_true_iff, !Rgeb_true, !Rltb_true; tauto.
Qed.

Lemma pixelValidCircular_true (m : IdealGenericCameraModel) (x y : R) :
  pixelValidCircular m x y = true <->
  (r1 m <= 0
   /\ (x - u0 m) * (x - u0 m) + (y - v0 m) * (y - v0 m) < r2 m * r2 m)
  \/ (0 < r1 m
      /\ r1 m * r1 m < (x - u0 m) * (x - u0 m) + (y - v0 m) * (y - v0 m)
      /\ (x - u0 m) * (x - u0 m) + (y - v0 m) * (y - v0 m) < r2 m * r2 m).
Proof.
  unfold pixelValidCircular.
  destruct (Rleb (r1 m) 0) eqn:E.
  - apply Rleb_true in E.
    cbv zeta; rewrite if_bool_id, Rltb_true.
    split; [tauto | intros [H | H]; [tauto | lra]].
  - apply Rleb_false in E.
    cbv zeta; rewrite if_bool_id, andb_true_iff, Rgtb_true, Rltb_true.
    split; [tauto | intros [H | H]; [lra | tauto]].
Qed.

Lemma std_min_le_l (a b : R) : std_min a b <= a.
Proof. unfold std_min; destruct (Rlt_dec b a); lra. Qed.

Lemma std_min_le_r (a b : R) : std_min a b <= b.
Proof. unfold std_min; destruct (Rlt_dec b a); lra. Qed.

Lemma std_min_pos (a b : R) : 0 < a -> 0 < b -> 0 < std_min a b.
Proof. unfold std_min; destruct (Rlt_dec b a); lra. Qed.

Lemma std_min_cases (a b : R) : std_min a b = a \/ std_min a b = b.
Proof. unfold std_min; destruct (Rlt_dec b a); tauto. Qed.

(** X7.  Rescaling the viewport rescales the image: for stored sizes
    nonzero, the pixel of every ray under the resized model is the pixel
    under the old model with its coordinates multiplied by the two axis
    ratios. *)
Theorem forward_resizeViewport (m : IdealGenericCameraModel) (w2 h2 : R)
                               (d : PointT) :
  width m <> 0 -> height m <> 0 ->
  forward (resizeViewport m w2 h2) d
  = MkPixel (w2 / width m * px0 (forward m d))
            (h2 / height m * px1 (forward m d)).
Proof.
  intros _ _.
  destruct m as [[a0 a1 a2 a3 a4 a5 a6 a7 a8]].
  rewrite !forward_of_normalized; model_fields; simpl.
  apply pixel_eq; unfold Rdiv; ring.
Qed.

Lemma scenario_width : width scenario <> 0.
Proof. cbv [width data coeff access parameters scenario make c5]; lra. Defined.

Lemma scenario_height : height scenario <> 0.
Proof. cbv [height data coeff access parameters scenario make c6]; lra. Defined.

Lemma forward_resizeViewport_witness :
  (width scenario <> 0 /\ height scenario <> 0)
  /\ forward (resizeViewport scenario 1280 960) (MkPoint 1 2 4)
     = MkPixel (1280 / width scenario * px0 (forward scenario (MkPoint 1 2 4)))
               (960 / height scenario * px1 (forward scenario (MkPoint 1 2 4))).
Proof.
  split; [exact (conj scenario_width scenario_height) |].
  exact (forward_resizeViewport scenario 1280 960 (MkPoint 1 2 4)
           scenario_width scenario_height).
Defined.

(** X8.  Rays do not depend on the viewport: with all four sizes and both
    focal lengths nonzero, the resized model unprojects the rescaled pixel
    to the ray the old model gives for the old pixel. *)
Theorem inverse_resizeViewport (m : IdealGenericCameraModel) (w2 h2 x y : R) :
  width m <> 0 -> height m <> 0 -> w2 <> 0 -> h2 <> 0 ->
  fx m <> 0 -> fy m <> 0 ->
  inverse (resizeViewport m w2 h2) (w2 / width m * x) (h2 / height m * y)
  = inverse m x y.
Proof.
  intros Hw Hh Hw2 Hh2 Hfx Hfy.
  destruct m as [[a0 a1 a2 a3 a4 a5 a6 a7 a8]].
  unfold inverse; model_fields; cbv zeta.
  replace ((w2 / a5 * x - a2 * (w2 / a5)) / (a0 * (w2 / a5)))
    with ((x - a2) / a0) by (field; repeat split; assumption).
  replace ((h2 / a6 * y - a3 * (h2 / a6)) / (a1 * (h2 / a6)))
    with ((y - a3) / a1) by (field; repeat split; assumption).
  reflexivity.
Qed.

Lemma inverse_resizeViewport_witness :
  (width scenario <> 0 /\ height scenario <> 0 /\ 1280 <> 0 /\ 960 <> 0
   /\ fx scenario <> 0 /\ fy scenario <> 0)
  /\ inverse (resizeViewport scenario 1280 960)
             (1280 / width scenario * 100) (960 / height scenario * 37)
     = inverse scenario 100 37.
Proof.
  assert (H1 : 1280 <> 0) by lra.
  assert (H2 : 960 <> 0) by lra.
  split.
  - exact (conj scenario_width (conj scenario_height
            (conj H1 (conj H2 (conj scenario_fx scenario_fy))))).
  - exact (inverse_resizeViewport scenario 1280 960 100 37
             scenario_width scenario_height H1 H2 scenario_fx scenario_fy).
Defined.

(** X9.  With old and new sizes positive, a pixel is inside the sensor
    rectangle of the old model exactly when the rescaled pixel is inside
    that of the resized model. *)
Theorem pixelValidSquare_resizeViewport (m : IdealGenericCameraModel)
                                        (w2 h2 x y : R) :
  0 < width m -> 0 < height m -> 0 < w2 -> 0 < h2 ->
  pixelValidSquare (resizeViewport m w2 h2)
                   (w2 / width m * x) (h2 / height m * y)
  = pixelValidSquare m x y.
Proof.
  intros Hw Hh Hw2 Hh2.
  apply eq_iff_eq_true; rewrite !pixelValidSquare_true.
  destruct m as [[a0 a1 a2 a3 a4 a5 a6 a7 a8]].
  model_fields.
  assert (Hkx : 0 < w2 / a5) by (apply Rdiv_lt_0_compat; assumption).
  assert (Hky : 0 < h2 / a6) by (apply Rdiv_lt_0_compat; assumption).
  assert (Ex : w2 = w2 / a5 * a5) by (field; lra).
  assert (Ey : h2 = h2 / a6 * a6) by (field; lra).
  set (kx := w2 / a5) in *; set (ky := h2 / a6) in *.
  clearbody kx ky; subst w2 h2.
  split; intros [[H1 H2] [H3 H4]]; repeat split; nra.
Qed.

Lemma pixelValidSquare_resizeViewport_witness :
  (0 < width scenario /\ 0 < height scenario /\ 0 < 1280 /\ 0 < 960)
  /\ pixelValidSquare (resizeViewport scenario 1280 960)
                      (1280 / width scenario * 100) (960 / height scenario * 37)
     = pixelValidSquare scenario 100 37.
Proof.
  assert (Hw : 0 < width scenario)
    by (cbv [width data coeff access parameters scenario make c5]; lra).
  assert (Hh : 0 < height scenario)
    by (cbv [height data coeff access parameters scenario make c6]; lra).
  assert (H1 : 0 < 1280) by lra.
  assert (H2 : 0 < 960) by lra.
  split; [exact (conj Hw (conj Hh (conj H1 H2))) |].
  exact (pixelValidSquare_resizeViewport scenario 1280 960 100 37 Hw Hh H1 H2).
Defined.

(** X10.  Under a resize that keeps the aspect ratio (positive sizes,
    [w2 / width = h2 / height]) the circular mask is carried along: a pixel
    passes the mask of the old model exactly when the rescaled pixel passes
    the mask of the resized one. *)
Theorem pixelValidCircular_resizeViewport (m : IdealGenericCameraModel)
                                          (w2 h2 x y : R) :
  0 < width m -> 0 < height m -> 0 < w2 ->
  w2 / width m = h2 / height m ->
  pixelValidCircular (resizeViewport m w2 h2)
                     (w2 / width m * x) (h2 / height m * y)
  = pixelValidCircular m x y.
Proof.
  intros Hw Hh Hw2 Hk.
  apply eq_iff_eq_true; rewrite !pixelValidCircular_true.
  destruct m as [[a0 a1 a2 a3 a4 a5 a6 a7 a8]].
  model_fields.
  rewrite <- Hk, std_min_same.
  assert (Hkpos : 0 < w2 / a5) by (apply Rdiv_lt_0_compat; assumption).
  set (k := w2 / a5) in *; clearbody k.
  replace ((k * x - a2 * k) * (k * x - a2 * k)
           + (k * y - a3 * k) * (k * y - a3 * k))
    with (k * k * ((x - a2) * (x - a2) + (y - a3) * (y - a3))) by ring.
  replace (a8 * k * (a8 * k)) with (k * k * (a8 * a8)) by ring.
  replace (a7 * k * (a7 * k)) with (k * k * (a7 * a7)) by ring.
  set (d2 := (x - a2) * (x - a2) + (y - a3) * (y - a3)); clearbody d2.
  set (s1 := a7 * a7); set (s2 := a8 * a8); clearbody s1 s2.
  assert (HK : 0 < k * k) by nra.
  set (K := k * k) in *; clearbody K.
  split; (intros [[H1 H2] | [H1 [H2 H3]]]; [left | right]; repeat split; nra).
Qed.

Lemma pixelValidCircular_resizeViewport_witness :
  (0 < width scenario /\ 0 < height scenario /\ 0 < 1280
   /\ 1280 / width scenario = 960 / height scenario)
  /\ pixelValidCircular (resizeViewport scenario 1280 960)
                        (1280 / width scenario * 100) (960 / height scenario * 37)
     = pixelValidCircular scenario 100 37.
Proof.
  assert (Hw : 0 < width scenario)
    by (cbv [width data coeff access parameters scenario make c5]; lra).
  assert (Hh : 0 < height scenario)
    by (cbv [height data coeff access parameters scenario make c6]; lra).
  assert (H1 : 0 < 1280) by lra.
  assert (Hk : 1280 / width scenario = 960 / height scenario)
    by (cbv [width height data coeff access parameters scenario make c5 c6]; lra).
  split; [exact (conj Hw (conj Hh (conj H1 Hk))) |].
  exact (pixelValidCircular_resizeViewport scenario 1280 960 100 37 Hw Hh H1 Hk).
Defined.

(** X11.  Resizing and then resizing back to the stored size (all four
    sizes nonzero) restores the focal lengths, the principal point, the
    shape parameter and the size; when the first resize keeps the aspect
    ratio it restores the whole model. *)
Theorem resizeViewport_back (m : IdealGenericCameraModel) (w2 h2 : R) :
  width m <> 0 -> height m <> 0 -> w2 <> 0 -> h2 <> 0 ->
  let m'' := resizeViewport (resizeViewport m w2 h2) (width m) (height m) in
  (fx m'' = fx m /\ fy m'' = fy m /\ u0 m'' = u0 m /\ v0 m'' = v0 m
   /\ epsilon m'' = epsilon m /\ width m'' = width m /\ height m'' = height m)
  /\ (w2 / width m = h2 / height m -> m'' = m).
Proof.
  intros Hw Hh Hw2 Hh2 m''; subst m''.
  destruct m as [[a0 a1 a2 a3 a4 a5 a6 a7 a8]].
  split.
  - model_fields; repeat split; try reflexivity; field; split; assumption.
  - model_fields; intros Hk.
    assert (Hk' : a5 / w2 = a6 / h2).
    { replace (a5 / w2) with (/ (w2 / a5)) by (field; split; assumption).
      replace (a6 / h2) with (/ (h2 / a6)) by (field; split; assumption).
      rewrite Hk; reflexivity. }
    rewrite <- Hk, <- Hk', !std_min_same.
    do 2 f_equal; field; split; assumption.
Qed.

Lemma resizeViewport_back_witness :
  (width scenario <> 0 /\ height scenario <> 0 /\ 1280 <> 0 /\ 960 <> 0
   /\ 1280 / width scenario = 960 / height scenario)
  /\ resizeViewport (resizeViewport scenario 1280 960)
                    (width scenario) (height scenario) = scenario.
Proof.
  assert (H1 : 1280 <> 0) by lra.
  assert (H2 : 960 <> 0) by lra.
  assert (Hk : 1280 / width scenario = 960 / height scenario)
    by (cbv [width height data coeff access parameters scenario make c5 c6]; lra).
  split.
  - exact (conj scenario_width (conj scenario_height (conj H1 (conj H2 Hk)))).
  - exact (proj2 (resizeViewport_back scenario 1280 960
                    scenario_width scenario_height H1 H2) Hk).
Defined.

(** X12.  With positive sizes, resizing and resizing back never enlarges a
    non-negative mask radius: both radii come back between 0 and their old
    value. *)
Theorem resizeViewport_back_radii (m : IdealGenericCameraModel) (w2 h2 : R) :
  0 < width m -> 0 < height m -> 0 < w2 -> 0 < h2 ->
  let m'' := resizeViewport (resizeViewport m w2 h2) (width m) (height m) in
  (0 <= r1 m -> 0 <= r1 m'' <= r1 m)
  /\ (0 <= r2 m -> 0 <= r2 m'' <= r2 m).
Proof.
  intros Hw Hh Hw2 Hh2 m''; subst m''.
  destruct m as [[a0 a1 a2 a3 a4 a5 a6 a7 a8]]; model_fields.
  assert (Hkx : 0 < w2 / a5) by (apply Rdiv_lt_0_compat; assumption).
  assert (Hky : 0 < h2 / a6) by (apply Rdiv_lt_0_compat; assumption).
  assert (Hix : 0 < a5 / w2) by (apply Rdiv_lt_0_compat; assumption).
  assert (Hiy : 0 < a6 / h2) by (apply Rdiv_lt_0_compat; assumption).
  assert (Hx1 : w2 / a5 * (a5 / w2) = 1) by (field; lra).
  assert (Hy1 : h2 / a6 * (a6 / h2) = 1) by (field; lra).
  pose proof (std_min_pos _ _ Hkx Hky) as Hm1.
  pose proof (std_min_pos _ _ Hix Hiy) as Hm2.
  pose proof (std_min_le_l (a5 / w2) (a6 / h2)) as Hl.
  pose proof (std_min_le_r (a5 / w2) (a6 / h2)) as Hr.
  assert (Hprod : std_min (w2 / a5) (h2 / a6) * std_min (a5 / w2) (a6 / h2) <= 1).
  { destruct (std_min_cases (w2 / a5) (h2 / a6)) as [E | E]; rewrite E.
    - rewrite <- Hx1; apply Rmult_le_compat_l; lra.
    - rewrite <- Hy1; apply Rmult_le_compat_l; lra. }
  assert (Hprod0 : 0 < std_min (w2 / a5) (h2 / a6) * std_min (a5 / w2) (a6 / h2))
    by (apply Rmult_lt_0_compat; assumption).
  set (mu := std_min (w2 / a5) (h2 / a6)) in *.
  set (nu := std_min (a5 / w2) (a6 / h2)) in *.
  clearbody mu nu.
  split; intros Hr0.
  - replace (a7 * mu * nu) with (a7 * (mu * nu)) by ring.
    split; [apply Rmult_le_pos; lra |].
    rewrite <- (Rmult_1_r a7) at 2; apply Rmult_le_compat_l; lra.
  - replace (a8 * mu * nu) with (a8 * (mu * nu)) by ring.
    split; [apply Rmult_le_pos; lra |].
    rewrite <- (Rmult_1_r a8) at 2; apply Rmult_le_compat_l; lra.
Qed.

Lemma resizeViewport_back_radii_witness :
  (0 < width scenario /\ 0 < height scenario /\ 0 < 1280 /\ 0 < 480
   /\ 0 <= r2 scenario)
  /\ 0 <= r2 (resizeViewport (resizeViewport scenario 1280 480)
                             (width scenario) (height scenario))
          <= r2 scenario.
Proof.
  assert (Hw : 0 < width scenario)
    by (cbv [width data coeff access parameters scenario make c5]; lra).
  assert (Hh : 0 < height scenario)
    by (cbv [height data coeff access parameters scenario make c6]; lra).
  assert (H1 : 0 < 1280) by lra.
  assert (H2 : 0 < 480) by lra.
  assert (Hr : 0 <= r2 scenario)
    by (cbv [r2 data coeff access parameters scenario make c8]; lra).
  split; [exact (conj Hw (conj Hh (conj H1 (conj H2 Hr)))) |].
  exact (proj2 (resizeViewport_back_radii scenario 1280 480 Hw Hh H1 H2) Hr).
Defined.

(** X13.  With positive sizes, a mask disk of radius [r2 >= 0] around the
    principal point that lies inside the sensor rectangle still lies inside
    it after the resize, also when the two axis ratios differ. *)
Theorem resizeViewport_mask_inside (m : IdealGenericCameraModel) (w2 h2 : R) :
  0 < width m -> 0 < height m -> 0 < w2 -> 0 < h2 ->
  0 <= r2 m ->
  r2 m <= u0 m -> u0 m + r2 m <= width m ->
  r2 m <= v0 m -> v0 m + r2 m <= height m ->
  let m' := resizeViewport m w2 h2 in
  0 <= r2 m'
  /\ r2 m' <= u0 m' /\ u0 m' + r2 m' <= width m'
  /\ r2 m' <= v0 m' /\ v0 m' + r2 m' <= height m'.
Proof.
  intros Hw Hh Hw2 Hh2 Hr Hu1 Hu2 Hv1 Hv2 m'; subst m'.
  destruct m as [[a0 a1 a2 a3 a4 a5 a6 a7 a8]]; model_fields.
  assert (Hkx : 0 < w2 / a5) by (apply Rdiv_lt_0_compat; assumption).
  assert (Hky : 0 < h2 / a6) by (apply Rdiv_lt_0_compat; assumption).
  assert (Ex : w2 = w2 / a5 * a5) by (field; lra).
  assert (Ey : h2 = h2 / a6 * a6) by (field; lra).
  pose proof (std_min_pos _ _ Hkx Hky) as Hm.
  pose proof (std_min_le_l (w2 / a5) (h2 / a6)) as Hl.
  pose proof (std_min_le_r (w2 / a5) (h2 / a6)) as Hr'.
  set (kx := w2 / a5) in *; set (ky := h2 / a6) in *.
  set (mu := std_min kx ky) in *.
  clearbody mu; clearbody kx ky; subst w2 h2.
  repeat split; nra.
Qed.

Lemma resizeViewport_mask_inside_witness :
  (0 < width (make 500 500 320 240 (1 / 2) 640 480 0 200)
   /\ 0 < height (make 500 500 320 240 (1 / 2) 640 480 0 200)
   /\ 0 < 1280 /\ 0 < 480)
  /\ u0 (resizeViewport (make 500 500 320 240 (1 / 2) 640 480 0 200) 1280 480)
     + r2 (resizeViewport (make 500 500 320 240 (1 / 2) 640 480 0 200) 1280 480)
     <= width (resizeViewport (make 500 500 320 240 (1 / 2) 640 480 0 200) 1280 480).
Proof.
  assert (Hw : 0 < width (make 500 500 320 240 (1 / 2) 640 480 0 200))
    by (model_fields; lra).
  assert (Hh : 0 < height (make 500 500 320 240 (1 / 2) 640 480 0 200))
    by (model_fields; lra).
  assert (H1 : 0 < 1280) by lra.
  assert (H2 : 0 < 480) by lra.
  split; [exact (conj Hw (conj Hh (conj H1 H2))) |].
  refine (proj1 (proj2 (proj2
    (resizeViewport_mask_inside (make 500 500 320 240 (1 / 2) 640 480 0 200)
       1280 480 Hw Hh H1 H2 _ _ _ _ _)))); model_fields; lra.
Defined.

(** * Further properties of the validity masks *)

Lemma sq_dist_nonneg (x y a b : R) :
  0 <= (x - a) * (x - a) + (y - b) * (y - b).
Proof.
  pose proof (Rle_0_sqr (x - a)) as H1; pose proof (Rle_0_sqr (y - b)) as H2.
  unfold Rsqr in *; lra.
Qed.

(** X14.  A model built by the four-argument constructor or by the default
    constructor has zero size and zero radii, and both masks reject every
    pixel. *)
Theorem masks_of_short_constructors (a0 a1 a2 a3 x y : R) :
  pixelValidSquare (make4 a0 a1 a2 a3) x y = false
  /\ pixelValidCircular (make4 a0 a1 a2 a3) x y = false
  /\ pixelValidSquare default_model x y = false
  /\ pixelValidCircular default_model x y = false.
Proof.
  repeat split; apply not_true_is_false; intros H.
  - apply pixelValidSquare_true in H; unfold make4 in H; model_fields; lra.
  - apply pixelValidCircular_true in H; unfold make4 in H; model_fields.
    pose proof (sq_dist_nonneg x y a2 a3) as Hd.
    destruct H as [[_ H] | [H _]]; lra.
  - apply pixelValidSquare_true in H.
    unfold default_model, Zero in H; model_fields; lra.
  - apply pixelValidCircular_true in H.
    unfold default_model, Zero in H; model_fields.
    pose proof (sq_dist_nonneg x y 0 0) as Hd.
    destruct H as [[_ H] | [H _]]; lra.
Qed.

(** X15.  The principal point passes the circular mask exactly when there
    is no inner radius ([r1 <= 0]) and the outer radius is not zero; with
    an inner radius it is always masked out. *)
Theorem pixelValidCircular_principal_point (m : IdealGenericCameraModel) :
  pixelValidCircular m (u0 m) (v0 m) = true <-> r1 m <= 0 /\ r2 m <> 0.
Proof.
  rewrite pixelValidCircular_true.
  replace ((u0 m - u0 m) * (u0 m - u0 m) + (v0 m - v0 m) * (v0 m - v0 m))
    with 0 by ring.
  split.
  - intros [[H1 H2] | [H1 [H2 H3]]]; [| nra].
    split; [exact H1 | intros H0; rewrite H0 in H2; lra].
  - intros [H1 H2]; left; split; [exact H1 | nra].
Qed.

(** X16.  Only the square of the outer radius matters: storing [- r2] in
    place of [r2] leaves the circular mask of every pixel unchanged. *)
Theorem pixelValidCircular_r2_sign (m : IdealGenericCameraModel) (x y : R) :
  pixelValidCircular (set_r2 m (- r2 m)) x y = pixelValidCircular m x y.
Proof.
  apply eq_iff_eq_true; rewrite !pixelValidCircular_true.
  destruct m as [[a0 a1 a2 a3 a4 a5 a6 a7 a8]]; model_fields.
  replace (- a8 * - a8) with (a8 * a8) by ring.
  reflexivity.
Qed.

(** * Parameter storage *)

(** X17.  Writing coefficient [i] (one of the nine) and reading coefficient
    [j] gives the written value when [j = i] and the old value of [j]
    otherwise: a setter changes its own parameter and no other. *)
Theorem data_set_data (m : IdealGenericCameraModel) (i j : nat) (x : R) :
  (i < NumParameters)%nat ->
  data (set_data m i x) j = if Nat.eqb i j then x else data m j.
Proof.
  intros Hi.
  destruct (Nat.eqb i j) eqn:E.
  - apply Nat.eqb_eq in E; subst j; apply data_set_data_same; exact Hi.
  - apply Nat.eqb_neq in E; apply data_set_data_other; exact E.
Qed.

Lemma data_set_data_witness :
  (7 < NumParameters)%nat
  /\ r1 (set_r1 scenario 100) = 100 /\ r2 (set_r1 scenario 100) = r2 scenario.
Proof.
  assert (H : (7 < NumParameters)%nat) by (unfold NumParameters,
    IdealGenericCameraModelParameterCount; lia).
  split; [exact H |]; split.
  - exact (data_set_data scenario 7 7 100 H).
  - exact (data_set_data scenario 7 8 100 H).
Defined.

(** X18.  Writes to different coefficients commute, a second write to the
    same coefficient replaces the first, and writing back the value just
    read changes nothing. *)
Theorem set_data_algebra (m : IdealGenericCameraModel) (i j : nat) (x y : R) :
  (i <> j -> set_data (set_data m i x) j y = set_data (set_data m j y) i x)
  /\ set_data (set_data m i x) i y = set_data m i y
  /\ set_data m i (data m i) = m.
Proof.
  destruct m as [[a0 a1 a2 a3 a4 a5 a6 a7 a8]].
  split; [| split].
  - intros Hij.
    do 9 (destruct i as [| i];
          [ do 9 (destruct j as [| j]; [ reflexivity || congruence |]);
            reflexivity |]).
    do 9 (destruct j as [| j]; [reflexivity |]); reflexivity.
  - do 9 (destruct i as [| i]; [reflexivity |]); reflexivity.
  - do 9 (destruct i as [| i]; [reflexivity |]); reflexivity.
Qed.

Lemma set_data_algebra_witness :
  0%nat <> 5%nat
  /\ set_width (set_fx scenario 1) 2 = set_fx (set_width scenario 2) 1.
Proof.
  assert (H : 0%nat <> 5%nat) by discriminate.
  split; [exact H |].
  exact (proj1 (set_data_algebra scenario 0 5 1 2) H).
Defined.

(** * Serialization, both directions *)


(** X20.  Reading back what [serialize] wrote restores the model, whatever
    the model that receives the values held before: the misnamed keys are
    misnamed the same way in both directions. *)
Theorem serialize_round_trip (version version' : N)
                             (m m0 : IdealGenericCameraModel) :
  serialize_in (serialize [] version m) version' m0 = Some m.
Proof.
  destruct m as [[a0 a1 a2 a3 a4 a5 a6 a7 a8]].
  destruct m0 as [[b0 b1 b2 b3 b4 b5 b6 b7 b8]].
  reflexivity.
Qed.


(** * The view variant *)

Lemma length_buf_set (b : Buffer) (a : nat) (x : R) :
  List.length (buf_set b a x) = List.length b.
Proof.
  revert a; induction b as [| h t IH]; intros [| a]; simpl; auto.
Qed.

Lemma buf_get_set_same (b : Buffer) (a : nat) (x : R) :
  (a < List.length b)%nat -> buf_get (buf_set b a x) a = x.
Proof.
  unfold buf_get; revert a; induction b as [| h t IH]; intros [| a] Ha;
    simpl in *; try lia; auto.
  apply IH; lia.
Qed.

Lemma buf_get_set_other (b : Buffer) (a a' : nat) (x : R) :
  a <> a' -> buf_get (buf_set b a x) a' = buf_get b a'.
Proof.
  unfold buf_get; revert a a'; induction b as [| h t IH];
    intros [| a] [| a'] Hne; simpl; auto; try congruence.
Qed.

Lemma length_map_set_data (v : MapModel) (b : Buffer) (i : nat) (x : R) :
  List.length (map_set_data v b i x) = List.length b.
Proof. apply length_buf_set. Qed.

Lemma map_data_sim (v : MapModel) (b : Buffer) (i : nat) :
  (i < NumParameters)%nat -> map_data v b i = data (assign_from_map v b) i.
Proof.
  unfold NumParameters, IdealGenericCameraModelParameterCount; intros Hi.
  do 9 (destruct i as [| i]; [reflexivity |]); lia.
Qed.

(** A write through the view is the same write on the copy of its cells. *)
Lemma map_set_data_sim (v : MapModel) (b : Buffer) (i : nat) (x : R) :
  (coeffs v + NumParameters <= List.length b)%nat -> (i < NumParameters)%nat ->
  assign_from_map v (map_set_data v b i x) = set_data (assign_from_map v b) i x.
Proof.
  unfold NumParameters, IdealGenericCameraModelParameterCount; intros Hb Hi.
  unfold assign_from_map, map_access, map_data, map_set_data, set_data; simpl.
  do 9 (destruct i as [| i];
        [ simpl; f_equal;
          rewrite buf_get_set_same by lia;
          rewrite !buf_get_set_other by lia; reflexivity |]).
  lia.
Qed.

(** X22.  A value stored through one view is what any view reads at the
    same cell of the buffer, and no view sees a change at another cell: two
    views of the same cells alias and views of disjoint cells are
    independent. *)
Theorem map_data_map_set_data (v1 v2 : MapModel) (b : Buffer) (i j : nat) (x : R) :
  (coeffs v1 + i < List.length b)%nat ->
  map_data v2 (map_set_data v1 b i x) j
  = if Nat.eqb (coeffs v1 + i) (coeffs v2 + j) then x else map_data v2 b j.
Proof.
  intros Hb; unfold map_data, map_set_data.
  destruct (Nat.eqb (coeffs v1 + i) (coeffs v2 + j)) eqn:E.
  - apply Nat.eqb_eq in E; rewrite <- E; apply buf_get_set_same; exact Hb.
  - apply Nat.eqb_neq in E; apply buf_get_set_other; exact E.
Qed.

Lemma map_data_map_set_data_witness :
  (coeffs (MkMap 2) + 0 < List.length (repeat 0 12))%nat
  /\ map_data (MkMap 0) (map_set_data (MkMap 2) (repeat 0 12) 0 7) 2 = 7
  /\ map_data (MkMap 0) (map_set_data (MkMap 2) (repeat 0 12) 0 7) 3 = 0.
Proof.
  assert (H : (coeffs (MkMap 2) + 0 < List.length (repeat 0 12))%nat)
    by (simpl; lia).
  split; [exact H |]; split.
  - exact (map_data_map_set_data (MkMap 2) (MkMap 0) (repeat 0 12) 0 2 7 H).
  - exact (map_data_map_set_data (MkMap 2) (MkMap 0) (repeat 0 12) 0 3 7 H).
Defined.

(** X23.  [resizeViewport] through a view whose nine cells lie inside the
    buffer does to those cells what [resizeViewport] does to an owned copy
    of them; the buffer keeps its length and every cell outside the nine,
    and the cell of the shape parameter, keeps its value. *)
Theorem map_resizeViewport_sim (v : MapModel) (b : Buffer) (w2 h2 : R) :
  (coeffs v + NumParameters <= List.length b)%nat ->
  assign_from_map v (map_resizeViewport v b w2 h2)
  = resizeViewport (assign_from_map v b) w2 h2
  /\ List.length (map_resizeViewport v b w2 h2) = List.length b
  /\ (forall a : nat,
        (a < coeffs v)%nat \/ (coeffs v + NumParameters <= a)%nat
        \/ a = (coeffs v + 4)%nat ->
        buf_get (map_resizeViewport v b w2 h2) a = buf_get b a).
Proof.
  intros Hb; split; [| split].
  - unfold map_resizeViewport; cbv zeta.
    assert (Hlt : forall k, (k < 9)%nat -> (k < NumParameters)%nat)
      by (intros k Hk; exact Hk).
    repeat (rewrite map_set_data_sim
              by (rewrite ?length_map_set_data; first [exact Hb | apply Hlt; lia])).
    rewrite !map_data_sim by (apply Hlt; lia).
    repeat (rewrite map_set_data_sim
              by (rewrite ?length_map_set_data; first [exact Hb | apply Hlt; lia])).
    reflexivity.
  - unfold map_resizeViewport; cbv zeta.
    rewrite !length_map_set_data; reflexivity.
  - unfold NumParameters, IdealGenericCameraModelParameterCount.
    intros a Ha.
    unfold map_resizeViewport, map_set_data; cbv zeta.
    rewrite !buf_get_set_other by lia; reflexivity.
Qed.

Lemma map_resizeViewport_sim_witness :
  (coeffs (MkMap 1) + NumParameters
   <= List.length [7; 500; 500; 320; 240; 1 / 2; 640; 480; 0; 300; 9])%nat
  /\ buf_get (map_resizeViewport (MkMap 1)
                [7; 500; 500; 320; 240; 1 / 2; 640; 480; 0; 300; 9] 1280 960) 0
     = 7
  /\ assign_from_map (MkMap 1)
       (map_resizeViewport (MkMap 1)
          [7; 500; 500; 320; 240; 1 / 2; 640; 480; 0; 300; 9] 1280 960)
     = resizeViewport scenario 1280 960.
Proof.
  assert (H : (coeffs (MkMap 1) + NumParameters
     <= List.length [7; 500; 500; 320; 240; 1 / 2; 640; 480; 0; 300; 9])%nat)
    by (unfold NumParameters, IdealGenericCameraModelParameterCount; simpl; lia).
  split; [exact H |]; split.
  - apply (proj2 (proj2 (map_resizeViewport_sim (MkMap 1)
             [7; 500; 500; 320; 240; 1 / 2; 640; 480; 0; 300; 9] 1280 960 H))).
    left; simpl; lia.
  - exact (proj1 (map_resizeViewport_sim (MkMap 1)
             [7; 500; 500; 320; 240; 1 / 2; 640; 480; 0; 300; 9] 1280 960 H)).
Defined.


